(** * bip9checker: the rolling block-version tally of [main.go]

    A shallow embedding of the window tally ([main], lines 187-237) and of
    the retarget calculator ([GetNextBlockRetarget]) of [main.go], with the
    properties of the specification stated against it.

    Go's [int] is modelled as [Z] with the 64-bit two's complement
    wrap-around written out; [map[int]int] is a [gmap Z Z] read with Go's
    zero default; loops are run by a [for] combinator with fuel, since a Go
    loop whose counter wraps around need not terminate. *)

From Stdlib Require Import ZArith Lia List.
From stdpp Require Import base option list numbers gmap fin_maps.

Local Open Scope Z_scope.

(** ** Go integers *)

Definition int_min : Z := -9223372036854775808.
Definition int_max : Z := 9223372036854775807.

(** Reduction of a mathematical integer to the [int] it is stored as. *)
Definition wrap (z : Z) : Z :=
  (z + 9223372036854775808) `mod` 18446744073709551616 - 9223372036854775808.

Definition int_add (a b : Z) : Z := wrap (a + b).
Definition int_sub (a b : Z) : Z := wrap (a - b).
Definition int_mul (a b : Z) : Z := wrap (a * b).

(** ** Constants of [main.go] *)

Definition BLOCK_RETARGET_INTERVAL : Z := 2016.
Definition BLOCK_BIP9_INTERVAL : Z := 2016 * 4.

(** ** Control: outcomes and the [for] statement *)

(** What running a piece of [main] leads to: control falls through with a
    memory [s], or [log.Fatal] ends the process ([s] is the memory at exit),
    or the model ran out of fuel. *)
Inductive outcome (St : Type) : Type :=
| Running (s : St)
| Fatal (s : St)
| OutOfFuel.
Arguments Running {St} s.
Arguments Fatal {St} s.
Arguments OutOfFuel {St}.

(** [for i := start; cond(i); i = post(i) { body }]. *)
Fixpoint for_loop {St : Type} (fuel : nat) (cond : Z → bool) (post : Z → Z)
    (body : Z → St → outcome St) (i : Z) (s : St) : outcome St :=
  match fuel with
  | O => OutOfFuel
  | S fuel' =>
      if cond i then
        match body i s with
        | Running s' => for_loop fuel' cond post body (post i) s'
        | o => o
        end
      else Running s
  end.

(** The loop body run over an explicit list of counter values. *)
Fixpoint run_list {St : Type} (body : Z → St → outcome St) (l : list Z) (s : St)
    : outcome St :=
  match l with
  | [] => Running s
  | i :: l' =>
      match body i s with
      | Running s' => run_list body l' s'
      | o => o
      end
  end.

(** ** Retarget calculator *)

(** [GetNextBlockRetarget], lines 170-179. [None] only when the fuel is
    used up. *)
Definition GetNextBlockRetarget (fuel : nat) (blockNum : Z) : option Z :=
  match for_loop fuel (λ i, i <? blockNum)
          (λ i, int_add i BLOCK_RETARGET_INTERVAL)
          (λ _ iterations, Running (int_add iterations 1)) 0 0 with
  | Running iterations =>
      let iterations :=
        if int_mul iterations BLOCK_RETARGET_INTERVAL =? blockNum
        then int_add iterations 1 else iterations in
      Some (int_mul iterations BLOCK_RETARGET_INTERVAL)
  | _ => None
  end.

(** ** The node, as the tally sees it *)

(** The error value [GetBlockCollated] returns; of the node's message only
    the request it answers is kept. *)
Inductive error : Type := RpcError (block : Z).

(** What the program prints and asks, in order. *)
Inductive event : Type :=
| Rpc (block : Z)                      (* GetBlockCollated(block) queries the node *)
| LogBlock (block version : Z)         (* "Block %s height %d has version %s" *)
| LogScan (blockStart : Z)             (* log.Println(blockStart) *)
| LogErr (e : error)                   (* log.Println(err) *)
| LogNewHeight (newHeight currentHeight diff : Z)
| LogAdding (i : Z)                    (* "Adding %d." *)
| LogRemoving (i : Z)                  (* "Removing %d." *)
| LogFatal (e : error)                 (* log.Fatal(err) *)
| LogSummary (blockHeight rangeStart totalBlocks : Z)
| Sleep.                               (* time.Sleep(time.Second) *)

(** [GetBlockCollated], lines 140-156. [chain] answers the two RPC calls:
    [Some version] when both succeed, [None] when one of them fails. The
    result is Go's pair [(int, error)] together with what was printed. *)
Definition GetBlockCollated (chain : Z → option Z) (block : Z)
    : Z * option error * list event :=
  match chain block with
  | Some version => (version, None, [Rpc block; LogBlock block version])
  | None => (0, Some (RpcError block), [Rpc block])
  end.

(** ** The histogram [blockIndex : map[int]int] *)

(** [m[k]] read: an absent key reads as zero. *)
Definition count (m : gmap Z Z) (k : Z) : Z := default 0 (m !! k).

(** [m[k] += 1] and [m[k] -= 1]. *)
Definition incr (m : gmap Z Z) (k : Z) : gmap Z Z := <[k := int_add (count m k) 1]> m.
Definition decr (m : gmap Z Z) (k : Z) : gmap Z Z := <[k := int_sub (count m k) 1]> m.

(** [totalBlocks] of [PrintBlockSummary], lines 161-164: the counts added
    up in [int], in whatever order the map is ranged over. *)
Definition total (m : gmap Z Z) : Z :=
  map_fold (λ _ cnt totalBlocks, int_add totalBlocks cnt) 0 m.

(** The counts added up as integers, without reduction to [int]. *)
Definition sum_counts (m : gmap Z Z) : Z :=
  map_fold (λ _ cnt acc, acc + cnt) 0 m.

(** [PrintBlockSummary], lines 158-168. The line per version (a floating
    point percentage, in map order) is left out. *)
Definition PrintBlockSummary (blockIndex : gmap Z Z) (blockHeight interval : Z)
    : list event :=
  [LogSummary blockHeight (int_add (int_sub blockHeight interval) 1) (total blockIndex)].

(** ** The tally *)

(** The memory of [main]: the two variables the loops share, and the
    events so far, most recent first. *)
Record state : Type := mkState {
  currentHeight : Z;
  blockIndex : gmap Z Z;
  trace : list event
}.

(** The events in the order they happened. *)
Definition history (s : state) : list event := reverse (trace s).

Definition log (s : state) (evs : list event) : state :=
  mkState (currentHeight s) (blockIndex s) (reverse evs ++ trace s).

Definition set_index (s : state) (m : gmap Z Z) : state :=
  mkState (currentHeight s) m (trace s).

(** Body of the initial scan, lines 194-199: a failed fetch is printed and
    the zero it returned is tallied. *)
Definition scan_body (chain : Z → option Z) (blockStart : Z) (s : state)
    : outcome state :=
  let '(blockVersion, err, evs) := GetBlockCollated chain blockStart in
  let logged := match err with Some e => [LogErr e] | None => [] end in
  Running (set_index (log s (LogScan blockStart :: evs ++ logged))
             (incr (blockIndex s) blockVersion)).

(** Body of the adding loop, lines 215-221. *)
Definition add_body (chain : Z → option Z) (i : Z) (s : state) : outcome state :=
  let '(blockVer, err, evs) := GetBlockCollated chain i in
  match err with
  | Some e => Fatal (log s (LogAdding i :: evs ++ [LogFatal e]))
  | None => Running (set_index (log s (LogAdding i :: evs)) (incr (blockIndex s) blockVer))
  end.

(** Body of the removing loop, lines 225-230. *)
Definition remove_body (chain : Z → option Z) (i : Z) (s : state) : outcome state :=
  let '(blockVer, err, evs) := GetBlockCollated chain i in
  match err with
  | Some e => Fatal (log s (LogRemoving i :: evs ++ [LogFatal e]))
  | None => Running (set_index (log s (LogRemoving i :: evs)) (decr (blockIndex s) blockVer))
  end.

(** The initial scan of [main], lines 187-202, for the height
    [currentHeight] that [GetBlockHeight] returned. (The two lines printed
    before the scan, 189-190, are not part of the tally.) *)
Definition Initialize (fuel : nat) (interval : Z) (chain : Z → option Z)
    (currentHeight : Z) : outcome state :=
  let blockStart := int_add (int_sub currentHeight interval) 1 in
  match for_loop fuel (λ blockStart, blockStart <=? currentHeight)
          (λ blockStart, int_add blockStart 1) (scan_body chain) blockStart
          (mkState currentHeight ∅ []) with
  | Running s =>
      Running (log s (PrintBlockSummary (blockIndex s) currentHeight interval))
  | o => o
  end.

(** One turn of the polling loop after [GetBlockHeight] returned
    [newHeight], lines 210-236. *)
Definition Advance (fuel : nat) (interval : Z) (chain : Z → option Z)
    (s : state) (newHeight : Z) : outcome state :=
  if negb (newHeight =? currentHeight s) then
    let diff := int_sub newHeight (currentHeight s) in
    let s1 := log s [LogNewHeight newHeight (currentHeight s) diff] in
    match for_loop fuel (λ i, i >? currentHeight s) (λ i, int_sub i 1)
            (add_body chain) newHeight s1 with
    | Running s2 =>
        match for_loop fuel
                (λ i, i <? int_add (int_sub newHeight interval) diff)
                (λ i, int_add i 1) (remove_body chain)
                (int_sub newHeight interval) s2 with
        | Running s3 =>
            let s4 := mkState newHeight (blockIndex s3) (trace s3) in
            Running (log s4 (PrintBlockSummary (blockIndex s4) newHeight interval))
        | o => o
        end
    | o => o
    end
  else Running (log s [Sleep]).

(** The polling loop, lines 204-237, over the heights that the successive
    calls of [GetBlockHeight] return. *)
Fixpoint poll (fuel : nat) (interval : Z) (chain : Z → option Z) (s : state)
    (heights : list Z) : outcome state :=
  match heights with
  | [] => Running s
  | newHeight :: heights' =>
      match Advance fuel interval chain s newHeight with
      | Running s' => poll fuel interval chain s' heights'
      | o => o
      end
  end.

(** The memory an outcome ends with (the start memory of an empty run when
    the fuel ran out). *)
Definition memory (o : outcome state) : state :=
  match o with
  | Running s | Fatal s => s
  | OutOfFuel => mkState 0 ∅ []
  end.

(** ** Vocabulary of the statements *)

Definition in_int (z : Z) : Prop := int_min ≤ z ≤ int_max.

(** Heights and window sizes small enough that no bound the loops compute
    leaves [int]. *)
Definition height_ok (h : Z) : Prop := 0 ≤ h < 4611686018427387904.
Definition interval_ok (interval : Z) : Prop := 1 ≤ interval < 4611686018427387904.

(** The version the tally books for a height: the fetched one, or the zero
    that comes with an error. *)
Definition booked (chain : Z → option Z) (h : Z) : Z :=
  (GetBlockCollated chain h).1.1.

(** The trailing window ending at [h]: [h - interval + 1 .. h]. *)
Definition window (interval h : Z) : list Z := seqZ (h - interval + 1) interval.

(** The heights [hi, hi - 1, ...], [n] of them. *)
Definition countdown (hi : Z) (n : nat) : list Z := (λ k : nat, hi - Z.of_nat k) <$> seq 0 n.

(** The heights the adding loop visits, in its order: [newHeight] down to
    [currentHeight + 1]. *)
Definition added_heights (currentHeight newHeight : Z) : list Z :=
  countdown newHeight (Z.to_nat (newHeight - currentHeight)).

(** The heights the removing loop visits, in its order: from
    [newHeight - interval], as many as were added. *)
Definition removed_heights (interval currentHeight newHeight : Z) : list Z :=
  seqZ (newHeight - interval) (newHeight - currentHeight).

(** A histogram after tallying, or untallying, a list of versions. *)
Definition tally (m : gmap Z Z) (versions : list Z) : gmap Z Z := foldl incr m versions.
Definition untally (m : gmap Z Z) (versions : list Z) : gmap Z Z := foldl decr m versions.

(** From-scratch histogram of the window ending at [h]. *)
Definition rescan (interval : Z) (chain : Z → option Z) (h : Z) : gmap Z Z :=
  tally ∅ (booked chain <$> window interval h).

Definition adding_of (e : event) : option Z :=
  match e with LogAdding i => Some i | _ => None end.
Definition removing_of (e : event) : option Z :=
  match e with LogRemoving i => Some i | _ => None end.
Definition rpc_of (e : event) : option Z :=
  match e with Rpc i => Some i | _ => None end.

(** What one turn of the initial scan prints and asks. *)
Definition scan_events (chain : Z → option Z) (h : Z) : list event :=
  LogScan h :: (GetBlockCollated chain h).2
    ++ match (GetBlockCollated chain h).1.2 with Some e => [LogErr e] | None => [] end.

(** What one turn of the adding ([tag = LogAdding]) or removing
    ([tag = LogRemoving]) loop prints and asks when its fetch succeeds. *)
Definition fetch_events (tag : Z → event) (chain : Z → option Z) (h : Z) : list event :=
  tag h :: (GetBlockCollated chain h).2.

(** The common shape of [add_body] and [remove_body]. *)
Definition fetch_body (upd : gmap Z Z → Z → gmap Z Z) (tag : Z → event)
    (chain : Z → option Z) (i : Z) (s : state) : outcome state :=
  let '(blockVer, err, evs) := GetBlockCollated chain i in
  match err with
  | Some e => Fatal (log s (tag i :: evs ++ [LogFatal e]))
  | None => Running (set_index (log s (tag i :: evs)) (upd (blockIndex s) blockVer))
  end.

Definition succeeded (o : outcome state) : bool :=
  match o with Running _ => true | _ => false end.

Definition died (o : outcome state) : bool :=
  match o with Fatal _ => true | _ => false end.

(** Every summary printed so far shows [n] as its total. *)
Definition summaries_show (n : Z) (tr : list event) : Prop :=
  ∀ h lo t, LogSummary h lo t ∈ tr → t = n.

(** ** Sample chains *)

(** Fuel for the sample runs. *)
Definition fuel_a : nat := Z.to_nat 20000.

(** Every block signals 0x20000000, but for two blocks at the low end of
    the window ending at height 20000. *)
Definition chain_a (h : Z) : option Z :=
  Some (if h =? 11937 then 1 else if h =? 11939 then 2 else 536870912).

Definition state_a : state :=
  memory (Initialize fuel_a BLOCK_BIP9_INTERVAL chain_a 20000).

(** [chain_a] while the node cannot serve block 20001. *)
Definition chain_b (h : Z) : option Z :=
  if h =? 20001 then None else chain_a h.

Definition state_b : state :=
  memory (Initialize fuel_a BLOCK_BIP9_INTERVAL chain_b 20000).

(** [chain_a] while the node cannot serve block 15000. *)
Definition chain_c (h : Z) : option Z :=
  if h =? 15000 then None else chain_a h.

(** The chain of the specification's scenarios, for a window of four
    blocks: heights 10-13 carry versions 1, 1, 2, 1, then 14, 15, 16 carry
    2, 2, 1. *)
Definition chain_s (h : Z) : option Z :=
  Some (if h =? 12 then 2 else if h =? 14 then 2 else if h =? 15 then 2 else 1).

Definition state_s : state := memory (Initialize 10 4 chain_s 13).

(** The scenario chain while the node cannot serve block 15. *)
Definition chain_t (h : Z) : option Z :=
  if h =? 15 then None else chain_s h.

(** The scenario chain while the node cannot serve block 11. *)
Definition chain_u (h : Z) : option Z :=
  if h =? 11 then None else chain_s h.

(** ** The rest of the program *)

(** The [range] loop of [PrintBlockSummary], lines 161-166, over the
    entries of the map in the order the [range] yields them, which Go
    leaves open. *)
Definition totalBlocks_over (entries : list (Z * Z)) : Z :=
  foldl (λ totalBlocks entry, int_add totalBlocks entry.2) 0 entries.

(** [GetBlockHeight], lines 121-130, on what the [getinfo] call yields:
    [Some blocks], or [None] when the call fails. The result is Go's pair
    [(int, error)], the error kept as a flag. *)
Definition GetBlockHeight (answer : option Z) : Z * bool :=
  match answer with
  | Some blocks => (blocks, false)
  | None => (0, true)
  end.

(** How a run of [main] over finitely many answers of the node ends. *)
Inductive exit : Type :=
| Polling (s : state)             (* the answers are used up, the loop goes on *)
| FetchFatal (s : state)          (* log.Fatal(err) in the adding or removing loop *)
| HeightFatal (s : option state)  (* log.Fatal(err) after GetBlockHeight; [None]: before the scan *)
| Starved.                        (* the model ran out of fuel *)

(** The polling loop, lines 204-237, over the answers to its calls of
    [GetBlockHeight]. *)
Fixpoint poll_answers (fuel : nat) (interval : Z) (chain : Z → option Z)
    (s : state) (answers : list (option Z)) : exit :=
  match answers with
  | [] => Polling s
  | answer :: answers' =>
      let '(newHeight, err) := GetBlockHeight answer in
      if err then HeightFatal (Some s)
      else
        match Advance fuel interval chain s newHeight with
        | Running s' => poll_answers fuel interval chain s' answers'
        | Fatal s' => FetchFatal s'
        | OutOfFuel => Starved
        end
  end.

(** [main], lines 181-238: the first answer of the node, the line
    "Next block retarget" (the first component of the result), the initial
    scan and the polling loop. *)
Definition main (fuel : nat) (chain : Z → option Z) (first : option Z)
    (later : list (option Z)) : option Z * exit :=
  let '(currentHeight, err) := GetBlockHeight first in
  if err then (None, HeightFatal None)
  else
    let interval := BLOCK_BIP9_INTERVAL in
    match GetNextBlockRetarget fuel currentHeight with
    | None => (None, Starved)
    | Some retarget =>
        (Some retarget,
         match Initialize fuel interval chain currentHeight with
         | Running s => poll_answers fuel interval chain s later
         | Fatal s => FetchFatal s
         | OutOfFuel => Starved
         end)
    end.

(** The polls find the same height or the next one, turn after turn. *)
Fixpoint single_steps (currentHeight : Z) (heights : list Z) : Prop :=
  match heights with
  | [] => True
  | newHeight :: heights' =>
      (newHeight = currentHeight ∨ newHeight = currentHeight + 1)
      ∧ single_steps newHeight heights'
  end.

(** The height the last of the polls found. *)
Fixpoint final_height (currentHeight : Z) (heights : list Z) : Z :=
  match heights with
  | [] => currentHeight
  | newHeight :: heights' => final_height newHeight heights'
  end.

(** The histogram agrees, count by count, with a fresh scan of the window
    ending at the stored height. *)
Definition agrees (interval : Z) (chain : Z → option Z) (s : state) : Prop :=
  ∀ k, count (blockIndex s) k = count (rescan interval chain (currentHeight s)) k.

(** How often a version occurs in a list of versions. *)
Definition occurrences (k : Z) (versions : list Z) : Z :=
  Z.of_nat (length (filter (λ v, v = k) versions)).

(** The scenario chain when the node has no block above height 19. *)
Definition chain_v (h : Z) : option Z :=
  if 19 <? h then None else chain_s h.

(** ** Tactics *)

(** Range side conditions of [int] arithmetic. *)
Ltac int_range := unfold in_int, height_ok, interval_ok, int_min, int_max in *; lia.

(** Closes a goal whose hypothesis [H] puts an event in a list of events
    of other kinds. *)
Ltac absurd_event H :=
  repeat (apply elem_of_cons in H as [H|H]; [discriminate H|]);
  by apply elem_of_nil in H.

(** Settles a conjunction of closed facts about the sample runs by
    running them. *)
Ltac by_running :=
  repeat match goal with |- _ ∧ _ => split end; vm_compute; reflexivity.

(** * Properties *)

(** ** Arithmetic of [int] *)

Lemma wrap_small z : in_int z → wrap z = z.
Proof.
  unfold in_int, int_min, int_max, wrap. intros H.
  rewrite Z.mod_small; lia.
Qed.

Lemma wrap_in_int z : in_int (wrap z).
Proof.
  unfold in_int, int_min, int_max, wrap.
  pose proof (Z.mod_pos_bound (z + 9223372036854775808) 18446744073709551616).
  lia.
Qed.

Lemma int_add_small a b : in_int (a + b) → int_add a b = a + b.
Proof. apply wrap_small. Qed.

Lemma int_sub_small a b : in_int (a - b) → int_sub a b = a - b.
Proof. apply wrap_small. Qed.

Lemma wrap_add_l a b : wrap (wrap a + b) = wrap (a + b).
Proof.
  unfold wrap.
  replace ((a + 9223372036854775808) `mod` 18446744073709551616
           - 9223372036854775808 + b + 9223372036854775808)
    with ((a + 9223372036854775808) `mod` 18446744073709551616 + b) by lia.
  rewrite Zplus_mod_idemp_l. do 2 f_equal. lia.
Qed.

Lemma wrap_add_r a b : wrap (a + wrap b) = wrap (a + b).
Proof. rewrite Z.add_comm, wrap_add_l. f_equal. lia. Qed.

Lemma wrap_wrap a : wrap (wrap a) = wrap a.
Proof. apply wrap_small, wrap_in_int. Qed.

(** ** The [for] statement *)

(** A loop whose counter takes the values [f 0], ..., [f (n-1)] and stops
    at [f n] runs its body over exactly these values. *)
Lemma for_loop_steps {St} (cond : Z → bool) (post : Z → Z)
    (body : Z → St → outcome St) (n : nat) :
  ∀ (f : nat → Z) (fuel : nat) (s : St),
    (∀ k, (k < n)%nat → cond (f k) = true ∧ post (f k) = f (S k)) →
    cond (f n) = false →
    (n < fuel)%nat →
    for_loop fuel cond post body (f O) s = run_list body (f <$> seq 0 n) s.
Proof.
  induction n as [|n IH]; intros f fuel s Hstep Hstop Hfuel.
  - destruct fuel as [|fuel]; [lia|]. simpl. by rewrite Hstop.
  - destruct fuel as [|fuel]; [lia|]. simpl.
    destruct (Hstep O) as [-> Hpost]; [lia|].
    destruct (body (f O) s) as [s'| |]; try done.
    rewrite Hpost, <- fmap_S_seq, <- list_fmap_compose.
    apply (IH (f ∘ S)); [|done|lia].
    intros k Hk. apply Hstep. lia.
Qed.

Lemma run_list_app {St} (body : Z → St → outcome St) l1 l2 s :
  run_list body (l1 ++ l2) s =
  match run_list body l1 s with
  | Running s' => run_list body l2 s'
  | o => o
  end.
Proof.
  revert s. induction l1 as [|i l1 IH]; intros s; simpl; [done|].
  destruct (body i s); auto.
Qed.

(** An upward loop [for i := lo; cond(i); i++] over [lo .. lo + n - 1]. *)
Lemma for_loop_up {St} (cond : Z → bool) (body : Z → St → outcome St)
    (lo n : Z) (fuel : nat) (s : St) :
  0 ≤ n → in_int lo → lo + n ≤ int_max →
  (∀ i, lo ≤ i < lo + n → cond i = true) →
  cond (lo + n) = false →
  (Z.to_nat n < fuel)%nat →
  for_loop fuel cond (λ i, int_add i 1) body lo s = run_list body (seqZ lo n) s.
Proof.
  intros Hn [Hlo _] Hhi Hin Hout Hfuel.
  pose proof (for_loop_steps cond (λ i, int_add i 1) body (Z.to_nat n)
                (λ k : nat, Z.of_nat k + lo) fuel s) as H.
  unfold seqZ. apply H; [|by rewrite Z2Nat.id, Z.add_comm|done].
  intros k Hk. split.
  - apply Hin. lia.
  - unfold int_add. rewrite wrap_small; [lia|].
    unfold in_int, int_min, int_max in *. lia.
Qed.

(** A downward loop [for i := hi; i > lo; i--] over [hi, hi - 1 .. lo + 1]. *)
Lemma for_loop_down {St} (body : Z → St → outcome St) (lo hi : Z)
    (fuel : nat) (s : St) :
  lo ≤ hi → in_int lo → in_int hi →
  (Z.to_nat (hi - lo) < fuel)%nat →
  for_loop fuel (λ i, i >? lo) (λ i, int_sub i 1) body hi s =
  run_list body (countdown hi (Z.to_nat (hi - lo))) s.
Proof.
  intros Hle [Hlo _] [_ Hhi] Hfuel.
  pose proof (for_loop_steps (λ i, i >? lo) (λ i, int_sub i 1) body
                (Z.to_nat (hi - lo)) (λ k : nat, hi - Z.of_nat k) fuel s) as H.
  simpl in H. rewrite Z.sub_0_r in H. unfold countdown. apply H; [| |done].
  2: { rewrite Z.gtb_ltb. apply Z.ltb_ge. lia. }
  intros k Hk. split; [apply Z.gtb_lt; lia|].
  unfold int_sub. rewrite wrap_small; [lia|].
  unfold in_int, int_min, int_max in *. lia.
Qed.

(** ** The retarget calculator *)

Lemma run_list_counting (l : list Z) :
  ∀ iterations : Z,
    in_int iterations → iterations + Z.of_nat (length l) ≤ int_max →
    run_list (λ _ iterations, Running (int_add iterations 1)) l iterations
    = Running (iterations + Z.of_nat (length l)).
Proof.
  induction l as [|i l IH]; intros it Hit Hmax; cbn [run_list length] in *.
  - f_equal. lia.
  - unfold int_add. rewrite wrap_small by (unfold in_int in *; lia).
    rewrite IH; [f_equal; lia| |lia].
    unfold in_int in *. lia.
Qed.

(** The loop of [GetNextBlockRetarget] counts the multiples of the interval
    below [blockNum]. *)
Lemma retarget_loop (blockNum : Z) (fuel : nat) :
  0 ≤ blockNum →
  (blockNum + 2015) `div` 2016 * 2016 ≤ int_max →
  (Z.to_nat ((blockNum + 2015) `div` 2016) < fuel)%nat →
  for_loop fuel (λ i, i <? blockNum) (λ i, int_add i BLOCK_RETARGET_INTERVAL)
    (λ _ iterations, Running (int_add iterations 1)) 0 0
  = Running ((blockNum + 2015) `div` 2016).
Proof.
  intros Hh Hmax Hfuel.
  set (n := (blockNum + 2015) `div` 2016) in *.
  assert (0 ≤ n ∧ blockNum ≤ 2016 * n < blockNum + 2016) as [Hn Hb].
  { subst n. Z.div_mod_to_equations. lia. }
  clearbody n.
  transitivity (run_list (λ (_ : Z) (iterations : Z), Running (int_add iterations 1))
                  ((λ k : nat, 2016 * Z.of_nat k) <$> seq 0 (Z.to_nat n)) 0).
  - apply (for_loop_steps (λ i, i <? blockNum)
             (λ i, int_add i BLOCK_RETARGET_INTERVAL) _ (Z.to_nat n)
             (λ k : nat, 2016 * Z.of_nat k)); [| |done].
    + intros k Hk. split.
      * apply Z.ltb_lt. lia.
      * unfold int_add, BLOCK_RETARGET_INTERVAL. rewrite wrap_small; [lia|].
        unfold in_int, int_min, int_max in *. lia.
    + apply Z.ltb_ge. rewrite Z2Nat.id by done. lia.
  - rewrite run_list_counting.
    + rewrite length_fmap, length_seq. f_equal. lia.
    + unfold in_int, int_min, int_max. lia.
    + rewrite length_fmap, length_seq. unfold int_max in *. lia.
Qed.

(** C4. For every height [h ≥ 0] whose next boundary fits in an [int],
    [GetNextBlockRetarget h] returns [(h / 2016 + 1) * 2016] once the fuel
    covers the loop; this is the smallest multiple of 2016 strictly above
    [h], also when [h] is itself a multiple; and [2016 ↦ 4032],
    [2015 ↦ 2016], [0 ↦ 2016]. *)
Theorem GetNextBlockRetarget_next_boundary :
  (∀ (h : Z) (fuel : nat),
      0 ≤ h →
      (h `div` BLOCK_RETARGET_INTERVAL + 1) * BLOCK_RETARGET_INTERVAL ≤ int_max →
      (Z.to_nat (h `div` BLOCK_RETARGET_INTERVAL) + 1 < fuel)%nat →
      GetNextBlockRetarget fuel h
      = Some ((h `div` BLOCK_RETARGET_INTERVAL + 1) * BLOCK_RETARGET_INTERVAL)
      ∧ h < (h `div` BLOCK_RETARGET_INTERVAL + 1) * BLOCK_RETARGET_INTERVAL
      ∧ ∀ m, h < m * BLOCK_RETARGET_INTERVAL →
             (h `div` BLOCK_RETARGET_INTERVAL + 1) * BLOCK_RETARGET_INTERVAL
             ≤ m * BLOCK_RETARGET_INTERVAL)
  ∧ GetNextBlockRetarget 3 2016 = Some 4032
  ∧ GetNextBlockRetarget 3 2015 = Some 2016
  ∧ GetNextBlockRetarget 3 0 = Some 2016.
Proof.
  split; [|by vm_compute].
  unfold BLOCK_RETARGET_INTERVAL. intros h fuel Hh Hmax Hfuel.
  split; [|split; [|intros m Hm]; Z.div_mod_to_equations; lia].
  unfold GetNextBlockRetarget.
  rewrite retarget_loop;
    [| done | unfold int_max in *; Z.div_mod_to_equations; lia
     | apply Nat.le_lt_trans with (Z.to_nat (h `div` 2016) + 1)%nat; [|done];
       Z.div_mod_to_equations; lia].
  unfold BLOCK_RETARGET_INTERVAL, int_mul, int_add.
  set (n := (h + 2015) `div` 2016).
  assert (0 ≤ n ∧ n * 2016 ≤ int_max ∧ h ≤ n * 2016 < h + 2016) as (Hn & Hnmax & Hnh).
  { subst n. unfold int_max in *. Z.div_mod_to_equations. lia. }
  assert (n * 2016 = h → n = h `div` 2016) as Hmul.
  { unfold n. intros ?. Z.div_mod_to_equations. lia. }
  assert (n * 2016 ≠ h → n = h `div` 2016 + 1) as Hnot.
  { unfold n. intros ?. Z.div_mod_to_equations. lia. }
  clearbody n.
  rewrite (wrap_small (n * 2016)) by (unfold in_int, int_min; lia).
  destruct (Z.eqb_spec (n * 2016) h) as [Heq|Hne].
  - rewrite (wrap_small (n + 1)) by (unfold in_int, int_min, int_max in *; lia).
    rewrite wrap_small by (unfold in_int, int_min, int_max in *; lia).
    f_equal. lia.
  - rewrite wrap_small by (unfold in_int, int_min; lia).
    f_equal. lia.
Qed.

Lemma GetNextBlockRetarget_next_boundary_witness :
  GetNextBlockRetarget 12 20000 = Some ((20000 `div` 2016 + 1) * 2016)
  ∧ 20000 < (20000 `div` 2016 + 1) * 2016
  ∧ ∀ m, 20000 < m * 2016 → (20000 `div` 2016 + 1) * 2016 ≤ m * 2016.
Proof.
  apply (proj1 GetNextBlockRetarget_next_boundary 20000 12%nat).
  - lia.
  - vm_compute. discriminate.
  - vm_compute. lia.
Defined.

(** Fuel is only ever missing: more of it does not change a result. *)
Lemma for_loop_fuel_mono {St} (cond : Z → bool) (post : Z → Z)
    (body : Z → St → outcome St) (fuel fuel' : nat) :
  (fuel ≤ fuel')%nat →
  ∀ i s, for_loop fuel cond post body i s ≠ OutOfFuel →
         for_loop fuel' cond post body i s = for_loop fuel cond post body i s.
Proof.
  revert fuel'. induction fuel as [|fuel IH]; intros fuel' Hle i s Hres.
  - by destruct Hres.
  - destruct fuel' as [|fuel']; [lia|]. simpl in *.
    destruct (cond i); [|done].
    destruct (body i s) as [s'| |]; try done.
    apply IH; [lia|done].
Qed.

(** ** The histogram *)

Lemma count_incr m k j :
  count (incr m k) j = if decide (k = j) then int_add (count m k) 1 else count m j.
Proof.
  unfold count at 1, incr. rewrite lookup_insert. by destruct (decide (k = j)).
Qed.

Lemma count_decr m k j :
  count (decr m k) j = if decide (k = j) then int_sub (count m k) 1 else count m j.
Proof.
  unfold count at 1, decr. rewrite lookup_insert. by destruct (decide (k = j)).
Qed.

Lemma total_step_comm (z1 z2 y : Z) :
  int_add (int_add y z2) z1 = int_add (int_add y z1) z2.
Proof. unfold int_add. rewrite !wrap_add_l. f_equal. lia. Qed.

Lemma total_empty : total ∅ = 0.
Proof. apply map_fold_empty. Qed.

Lemma total_insert_fresh (m : gmap Z Z) k v :
  m !! k = None → total (<[k:=v]> m) = int_add (total m) v.
Proof.
  intros Hk. unfold total. rewrite map_fold_insert_L; [done| |done].
  intros. apply total_step_comm.
Qed.

Lemma total_insert (m : gmap Z Z) k v :
  total (<[k:=v]> m) = wrap (total m - count m k + v).
Proof.
  unfold count. destruct (m !! k) as [old|] eqn:Hk; simpl.
  - rewrite <- (insert_delete_eq m k v).
    rewrite <- (insert_delete_id m k old Hk) at 2.
    rewrite !total_insert_fresh by apply lookup_delete_eq.
    unfold int_add.
    replace (wrap (total (delete k m) + old) - old + v)
      with (wrap (total (delete k m) + old) + (v - old)) by lia.
    rewrite wrap_add_l. f_equal. lia.
  - rewrite total_insert_fresh by done. unfold int_add. f_equal. lia.
Qed.

Lemma sum_counts_insert_fresh (m : gmap Z Z) k v :
  m !! k = None → sum_counts (<[k:=v]> m) = sum_counts m + v.
Proof.
  intros Hk. unfold sum_counts. rewrite map_fold_insert_L; [done| |done].
  intros. lia.
Qed.

(** [totalBlocks] is the sum of the counts, reduced to an [int]. *)
Lemma total_wrap_sum (m : gmap Z Z) : total m = wrap (sum_counts m).
Proof.
  induction m as [|k v m Hk IH] using map_ind.
  - by rewrite total_empty.
  - rewrite total_insert_fresh, sum_counts_insert_fresh, IH by done.
    unfold int_add. apply wrap_add_l.
Qed.

Lemma total_incr m k : total (incr m k) = wrap (total m + 1).
Proof.
  unfold incr, int_add. rewrite total_insert.
  rewrite wrap_add_r. f_equal. lia.
Qed.

Lemma total_decr m k : total (decr m k) = wrap (total m - 1).
Proof.
  unfold decr, int_sub. rewrite total_insert.
  rewrite wrap_add_r. f_equal. lia.
Qed.

Lemma total_in_int (m : gmap Z Z) : in_int (total m).
Proof.
  induction m as [|k x m Hk _] using map_ind.
  - rewrite total_empty. unfold in_int, int_min, int_max. lia.
  - rewrite total_insert_fresh by done. apply wrap_in_int.
Qed.

Lemma total_tally vs : ∀ m, total (tally m vs) = wrap (total m + Z.of_nat (length vs)).
Proof.
  unfold tally. induction vs as [|v vs IH]; intros m; simpl.
  - rewrite Z.add_0_r. symmetry. apply wrap_small, total_in_int.
  - rewrite IH, total_incr, wrap_add_l. f_equal. lia.
Qed.

Lemma total_untally vs : ∀ m, total (untally m vs) = wrap (total m - Z.of_nat (length vs)).
Proof.
  unfold untally. induction vs as [|v vs IH]; intros m; simpl.
  - rewrite Z.sub_0_r. symmetry. apply wrap_small, total_in_int.
  - rewrite IH, total_decr.
    replace (wrap (total m - 1) - Z.of_nat (length vs))
      with (wrap (total m - 1) + - Z.of_nat (length vs)) by lia.
    rewrite wrap_add_l. f_equal. lia.
Qed.

(** ** The three loops of [main] over explicit lists of heights *)

Lemma add_body_fetch chain : add_body chain = fetch_body incr LogAdding chain.
Proof. reflexivity. Qed.

Lemma remove_body_fetch chain : remove_body chain = fetch_body decr LogRemoving chain.
Proof. reflexivity. Qed.

(** The initial scan never stops: every height is tallied, with the zero of
    a failed fetch where the fetch failed. *)
Lemma run_scan chain l :
  ∀ s, run_list (scan_body chain) l s
       = Running (mkState (currentHeight s)
                    (tally (blockIndex s) (booked chain <$> l))
                    (reverse (l ≫= scan_events chain) ++ trace s)).
Proof.
  induction l as [|h l IH]; intros s; cbn [run_list].
  - by destruct s.
  - unfold scan_body at 1.
    destruct (GetBlockCollated chain h) as [[v err] evs] eqn:Hget.
    rewrite IH. cbn [currentHeight blockIndex trace set_index log].
    f_equal. f_equal.
    + cbn [fmap list_fmap tally foldl]. unfold booked at 2. by rewrite Hget.
    + rewrite bind_cons, reverse_app, <- app_assoc. f_equal.
      unfold scan_events. by rewrite Hget.
Qed.

(** An adding or removing loop whose fetches all succeed. *)
Lemma run_fetch_ok upd tag chain l :
  Forall (λ h, is_Some (chain h)) l →
  ∀ s, run_list (fetch_body upd tag chain) l s
       = Running (mkState (currentHeight s)
                    (foldl upd (blockIndex s) (booked chain <$> l))
                    (reverse (l ≫= fetch_events tag chain) ++ trace s)).
Proof.
  induction 1 as [|h l [v Hv] _ IH]; intros s; cbn [run_list].
  - by destruct s.
  - unfold fetch_body at 1, GetBlockCollated. rewrite Hv.
    rewrite IH. cbn [currentHeight blockIndex trace set_index log].
    f_equal. f_equal.
    + cbn [fmap list_fmap foldl]. unfold booked at 2, GetBlockCollated.
      by rewrite Hv.
    + rewrite bind_cons, reverse_app, <- app_assoc. f_equal.
      unfold fetch_events, GetBlockCollated. by rewrite Hv.
Qed.

(** An adding or removing loop stops at its first failing fetch: the
    process exits with the updates made so far. *)
Lemma run_fetch_fatal upd tag chain l1 h l2 :
  Forall (λ h, is_Some (chain h)) l1 →
  chain h = None →
  ∀ s, run_list (fetch_body upd tag chain) (l1 ++ h :: l2) s
       = Fatal (mkState (currentHeight s)
                  (foldl upd (blockIndex s) (booked chain <$> l1))
                  (LogFatal (RpcError h) :: Rpc h :: tag h
                     :: reverse (l1 ≫= fetch_events tag chain) ++ trace s)).
Proof.
  intros Hl1 Hh s. rewrite run_list_app, run_fetch_ok by done.
  cbn [run_list]. unfold fetch_body, GetBlockCollated. rewrite Hh.
  reflexivity.
Qed.

(** A loop that fell through met no failing fetch. *)
Lemma run_fetch_Running upd tag chain l :
  ∀ s s', run_list (fetch_body upd tag chain) l s = Running s' →
          Forall (λ h, is_Some (chain h)) l.
Proof.
  induction l as [|h l IH]; intros s s' Hrun; [constructor|].
  cbn [run_list] in Hrun. unfold fetch_body at 1, GetBlockCollated in Hrun.
  destruct (chain h) as [v|] eqn:Hv; [|done].
  constructor; [by eexists|]. by eapply IH.
Qed.

(** ** [Initialize] and [Advance] in closed form *)

Lemma Initialize_run fuel interval chain h :
  interval_ok interval → height_ok h → (Z.to_nat interval < fuel)%nat →
  Initialize fuel interval chain h
  = Running (log (mkState h (rescan interval chain h)
                    (reverse (window interval h ≫= scan_events chain)))
               (PrintBlockSummary (rescan interval chain h) h interval)).
Proof.
  intros HW Hh Hfuel. unfold Initialize.
  rewrite (int_sub_small h interval) by int_range.
  rewrite (int_add_small (h - interval) 1) by int_range.
  rewrite (for_loop_up _ _ (h - interval + 1) interval);
    [| int_range | int_range | int_range
     | intros i Hi; apply Z.leb_le; lia | apply Z.leb_gt; lia | done].
  rewrite run_scan. cbn [currentHeight blockIndex trace].
  by rewrite app_nil_r.
Qed.

Lemma Advance_still fuel interval chain s :
  Advance fuel interval chain s (currentHeight s) = Running (log s [Sleep]).
Proof. unfold Advance. by rewrite Z.eqb_refl. Qed.

Lemma Advance_backward fuel interval chain s newHeight :
  interval_ok interval → height_ok (currentHeight s) → height_ok newHeight →
  newHeight < currentHeight s → (0 < fuel)%nat →
  Advance fuel interval chain s newHeight
  = Running
      (log (mkState newHeight (blockIndex s)
              (LogNewHeight newHeight (currentHeight s) (newHeight - currentHeight s)
                 :: trace s))
         (PrintBlockSummary (blockIndex s) newHeight interval)).
Proof.
  intros HW Hcur Hnew Hlt Hfuel. unfold Advance.
  destruct (Z.eqb_spec newHeight (currentHeight s)) as [|_]; [lia|].
  cbn [negb]. destruct fuel as [|fuel]; [lia|]. cbn [for_loop].
  rewrite (int_sub_small newHeight (currentHeight s)) by int_range.
  rewrite (int_sub_small newHeight interval) by int_range.
  rewrite (int_add_small (newHeight - interval)) by int_range.
  replace (newHeight >? currentHeight s) with false
    by (symmetry; rewrite Z.gtb_ltb; apply Z.ltb_ge; lia).
  replace (newHeight - interval <? newHeight - interval + (newHeight - currentHeight s))
    with false by (symmetry; apply Z.ltb_ge; lia).
  reflexivity.
Qed.

Lemma Advance_forward fuel interval chain s newHeight :
  interval_ok interval → height_ok (currentHeight s) → height_ok newHeight →
  currentHeight s < newHeight →
  (Z.to_nat (newHeight - currentHeight s) < fuel)%nat →
  Advance fuel interval chain s newHeight
  = match run_list (add_body chain) (added_heights (currentHeight s) newHeight)
            (log s [LogNewHeight newHeight (currentHeight s)
                      (newHeight - currentHeight s)]) with
    | Running s2 =>
        match run_list (remove_body chain)
                (removed_heights interval (currentHeight s) newHeight) s2 with
        | Running s3 =>
            Running (log (mkState newHeight (blockIndex s3) (trace s3))
                       (PrintBlockSummary (blockIndex s3) newHeight interval))
        | o => o
        end
    | o => o
    end.
Proof.
  intros HW Hcur Hnew Hlt Hfuel. unfold Advance.
  destruct (Z.eqb_spec newHeight (currentHeight s)) as [|_]; [lia|].
  cbn [negb].
  rewrite (int_sub_small newHeight (currentHeight s)) by int_range.
  rewrite (int_sub_small newHeight interval) by int_range.
  rewrite (int_add_small (newHeight - interval)) by int_range.
  rewrite for_loop_down; [| lia | int_range | int_range | done].
  unfold added_heights, removed_heights.
  destruct (run_list (add_body chain) _ _) as [s2| |]; try done.
  by rewrite (for_loop_up _ _ (newHeight - interval) (newHeight - currentHeight s));
    [| int_range | int_range | int_range
     | intros i Hi; apply Z.ltb_lt; lia | apply Z.ltb_ge; lia | done].
Qed.

Lemma Initialize_fuel_mono fuel fuel' interval chain h :
  (fuel ≤ fuel')%nat →
  Initialize fuel interval chain h ≠ OutOfFuel →
  Initialize fuel' interval chain h = Initialize fuel interval chain h.
Proof.
  intros Hle Hres. unfold Initialize in *.
  rewrite (for_loop_fuel_mono _ _ _ fuel fuel' Hle); [done|].
  intros Hout. by rewrite Hout in Hres.
Qed.

Lemma Advance_fuel_mono fuel fuel' interval chain s newHeight :
  (fuel ≤ fuel')%nat →
  Advance fuel interval chain s newHeight ≠ OutOfFuel →
  Advance fuel' interval chain s newHeight = Advance fuel interval chain s newHeight.
Proof.
  intros Hle Hres. unfold Advance in *.
  destruct (negb (newHeight =? currentHeight s)); [|done].
  rewrite (for_loop_fuel_mono _ _ _ fuel fuel' Hle).
  2: { intros Hout. by rewrite Hout in Hres. }
  destruct (for_loop fuel _ _ (add_body chain) _ _) as [s2| |]; try done.
  rewrite (for_loop_fuel_mono _ _ _ fuel fuel' Hle); [done|].
  intros Hout. by rewrite Hout in Hres.
Qed.

(** A finished initial scan, whatever the fuel it was given. *)
Lemma Initialize_Running fuel interval chain h s :
  interval_ok interval → height_ok h →
  Initialize fuel interval chain h = Running s →
  s = log (mkState h (rescan interval chain h)
             (reverse (window interval h ≫= scan_events chain)))
        (PrintBlockSummary (rescan interval chain h) h interval).
Proof.
  intros HW Hh Hrun.
  pose proof (Initialize_fuel_mono fuel (fuel + S (Z.to_nat interval)) interval chain h)
    as Hmono.
  rewrite Hrun, Initialize_run in Hmono by (done || lia).
  enough (Running (log (mkState h (rescan interval chain h)
             (reverse (window interval h ≫= scan_events chain)))
        (PrintBlockSummary (rescan interval chain h) h interval)) = Running s)
    by congruence.
  apply Hmono; [lia|done].
Qed.

(** A finished forward step, whatever the fuel: every fetch succeeded, the
    added versions were tallied and the removed ones untallied. *)
Lemma Advance_Running fuel interval chain s newHeight s' :
  interval_ok interval → height_ok (currentHeight s) → height_ok newHeight →
  currentHeight s < newHeight →
  Advance fuel interval chain s newHeight = Running s' →
  let adds := added_heights (currentHeight s) newHeight in
  let rems := removed_heights interval (currentHeight s) newHeight in
  let m := untally (tally (blockIndex s) (booked chain <$> adds)) (booked chain <$> rems) in
  Forall (λ h, is_Some (chain h)) adds ∧
  Forall (λ h, is_Some (chain h)) rems ∧
  s' = log (mkState newHeight m
              (reverse (rems ≫= fetch_events LogRemoving chain)
                 ++ reverse (adds ≫= fetch_events LogAdding chain)
                 ++ LogNewHeight newHeight (currentHeight s)
                      (newHeight - currentHeight s) :: trace s))
         (PrintBlockSummary m newHeight interval).
Proof.
  intros HW Hcur Hnew Hlt Hrun adds rems m.
  pose proof (Advance_fuel_mono fuel
                (fuel + S (Z.to_nat (newHeight - currentHeight s)))
                interval chain s newHeight) as Hmono.
  rewrite Hrun in Hmono. rewrite Advance_forward in Hmono by (done || lia).
  specialize (Hmono ltac:(lia) ltac:(done)).
  rewrite add_body_fetch, remove_body_fetch in Hmono.
  fold adds rems in Hmono.
  destruct (run_list (fetch_body incr LogAdding chain) adds _) as [s2| |] eqn:Hadd;
    try done.
  destruct (run_list (fetch_body decr LogRemoving chain) rems s2) as [s3| |] eqn:Hrem;
    try done.
  pose proof (run_fetch_Running _ _ _ _ _ _ Hadd) as Hadds.
  pose proof (run_fetch_Running _ _ _ _ _ _ Hrem) as Hrems.
  rewrite run_fetch_ok in Hadd by done. rewrite run_fetch_ok in Hrem by done.
  split; [done|]. split; [done|].
  injection Hmono as <-. injection Hrem as <-. injection Hadd as <-.
  reflexivity.
Qed.

(** ** The sum of the counts *)

Lemma length_added_heights cur newHeight :
  length (added_heights cur newHeight) = Z.to_nat (newHeight - cur).
Proof. unfold added_heights, countdown. by rewrite length_fmap, length_seq. Qed.

Lemma length_removed_heights interval cur newHeight :
  length (removed_heights interval cur newHeight) = Z.to_nat (newHeight - cur).
Proof. unfold removed_heights. by rewrite length_seqZ. Qed.

Lemma summary_not_fetched tag chain l h lo t :
  (∀ i, tag i ≠ LogSummary h lo t) →
  LogSummary h lo t ∉ l ≫= fetch_events tag chain.
Proof.
  intros Htag Hin. apply list_elem_of_bind in Hin as (i & Hin & _).
  unfold fetch_events, GetBlockCollated in Hin.
  apply elem_of_cons in Hin as [Heq|Hin]; [by eapply Htag|].
  destruct (chain i); absurd_event Hin.
Qed.

Lemma summary_not_scanned chain l h lo t :
  LogSummary h lo t ∉ l ≫= scan_events chain.
Proof.
  intros Hin. apply list_elem_of_bind in Hin as (i & Hin & _).
  unfold scan_events, GetBlockCollated in Hin.
  destruct (chain i); absurd_event Hin.
Qed.

Lemma elem_of_logged_once (e e' : event) (tr : list event) :
  e ∈ reverse [e'] ++ tr ↔ e = e' ∨ e ∈ tr.
Proof. rewrite reverse_singleton. apply elem_of_cons. Qed.

Lemma elem_of_summary_logged e m h interval tr :
  e ∈ reverse (PrintBlockSummary m h interval) ++ tr →
  e = LogSummary h (int_add (int_sub h interval) 1) (total m) ∨ e ∈ tr.
Proof. apply elem_of_logged_once. Qed.

(** The initial scan tallies [interval] blocks. *)
Lemma Initialize_total fuel interval chain h s :
  interval_ok interval → height_ok h →
  Initialize fuel interval chain h = Running s →
  currentHeight s = h ∧ total (blockIndex s) = interval ∧
  summaries_show interval (trace s).
Proof.
  intros HW Hh Hrun. apply Initialize_Running in Hrun as ->; [|done..].
  assert (total (rescan interval chain h) = interval) as Htot.
  { unfold rescan, window. rewrite total_tally, total_empty, length_fmap, length_seqZ.
    rewrite Z.add_0_l, Z2Nat.id by int_range. apply wrap_small. int_range. }
  cbn [log currentHeight blockIndex trace].
  split; [done|]. split; [done|].
  intros h' lo t Hin.
  apply elem_of_summary_logged in Hin as [[= _ _ ->]|Hin]; [done|].
  rewrite elem_of_reverse in Hin. by apply summary_not_scanned in Hin.
Qed.

(** A finished turn of the polling loop adds as many blocks as it removes:
    the total, and the total shown by every summary, stay what they were. *)
Lemma Advance_total fuel interval chain s newHeight s' :
  interval_ok interval → height_ok (currentHeight s) → height_ok newHeight →
  Advance fuel interval chain s newHeight = Running s' →
  currentHeight s' = newHeight ∧
  total (blockIndex s') = total (blockIndex s) ∧
  (summaries_show (total (blockIndex s)) (trace s) →
   summaries_show (total (blockIndex s)) (trace s')).
Proof.
  intros HW Hcur Hnew Hrun.
  destruct (Z.lt_trichotomy newHeight (currentHeight s)) as [Hlt|[->|Hgt]].
  - pose proof (Advance_fuel_mono fuel (S fuel) interval chain s newHeight) as Hmono.
    rewrite Hrun, Advance_backward in Hmono by (done || lia).
    specialize (Hmono ltac:(lia) ltac:(done)). injection Hmono as <-.
    cbn [log currentHeight blockIndex trace].
    split; [done|]. split; [done|].
    intros Hshow h lo t Hin.
    apply elem_of_summary_logged in Hin as [[= _ _ ->]|Hin]; [done|].
    apply elem_of_cons in Hin as [[=]|Hin]. by eapply Hshow.
  - rewrite Advance_still in Hrun. injection Hrun as <-.
    cbn [log currentHeight blockIndex trace].
    split; [done|]. split; [done|].
    intros Hshow h lo t Hin.
    apply elem_of_logged_once in Hin as [[=]|Hin]. by eapply Hshow.
  - apply Advance_Running in Hrun as (_ & _ & ->); [|done..].
    cbn [log currentHeight blockIndex trace].
    assert (total (untally (tally (blockIndex s)
                      (booked chain <$> added_heights (currentHeight s) newHeight))
                      (booked chain <$> removed_heights interval (currentHeight s) newHeight))
            = total (blockIndex s)) as Htot.
    { rewrite total_untally, total_tally, !length_fmap.
      rewrite length_added_heights, length_removed_heights.
      replace (wrap (total (blockIndex s) + Z.of_nat (Z.to_nat (newHeight - currentHeight s)))
               - Z.of_nat (Z.to_nat (newHeight - currentHeight s)))
        with (wrap (total (blockIndex s) + Z.of_nat (Z.to_nat (newHeight - currentHeight s)))
              + - Z.of_nat (Z.to_nat (newHeight - currentHeight s))) by lia.
      rewrite wrap_add_l.
      replace (total (blockIndex s) + Z.of_nat (Z.to_nat (newHeight - currentHeight s))
               + - Z.of_nat (Z.to_nat (newHeight - currentHeight s)))
        with (total (blockIndex s)) by lia.
      apply wrap_small, total_in_int. }
    split; [done|]. split; [done|].
    intros Hshow h lo t Hin.
    apply elem_of_summary_logged in Hin as [[= _ _ ->]|Hin]; [done|].
    rewrite !elem_of_app, !elem_of_reverse in Hin.
    destruct Hin as [Hin|[Hin|Hin]].
    + by apply summary_not_fetched in Hin.
    + by apply summary_not_fetched in Hin.
    + apply elem_of_cons in Hin as [[=]|Hin]. by eapply Hshow.
Qed.

(** C2. After an initial scan and any number of finished turns of the
    polling loop, the counts of the histogram add up to the window size:
    as [PrintBlockSummary] adds them up in [int], in every summary printed
    on the way, and as integers whenever their sum is an [int] at all.
    (The turns need not even move forward.) *)
Theorem total_is_interval fuel interval chain h0 heights s0 s :
  interval_ok interval → height_ok h0 → Forall height_ok heights →
  Initialize fuel interval chain h0 = Running s0 →
  poll fuel interval chain s0 heights = Running s →
  total (blockIndex s) = interval ∧
  summaries_show interval (trace s) ∧
  (in_int (sum_counts (blockIndex s)) → sum_counts (blockIndex s) = interval).
Proof.
  intros HW Hh0 Hheights Hinit Hpoll.
  enough (total (blockIndex s) = interval ∧ summaries_show interval (trace s))
    as [Htot Hshow].
  { split; [done|]. split; [done|]. intros Hin.
    by rewrite total_wrap_sum, wrap_small in Htot. }
  apply Initialize_total in Hinit as (Hcur & Htot & Hshow); [|done..].
  rewrite <- Hcur in Hh0. clear Hcur h0.
  revert s0 Hh0 Htot Hshow Hpoll.
  induction Hheights as [|newHeight heights Hnew _ IH];
    intros s0 Hcur Htot Hshow Hpoll; cbn [poll] in Hpoll.
  - by injection Hpoll as <-.
  - destruct (Advance fuel interval chain s0 newHeight) as [s1| |] eqn:Hadv;
      try done.
    apply Advance_total in Hadv as (Hcur1 & Htot1 & Hshow1); [|done..].
    apply (IH s1); [by rewrite Hcur1|by rewrite Htot1| |done].
    rewrite <- Htot. apply Hshow1. by rewrite Htot.
Qed.

Lemma total_is_interval_witness :
  total (blockIndex (memory (poll 10 4 chain_s state_s [14; 14; 16]))) = 4
  ∧ summaries_show 4 (trace (memory (poll 10 4 chain_s state_s [14; 14; 16])))
  ∧ (in_int (sum_counts (blockIndex (memory (poll 10 4 chain_s state_s [14; 14; 16]))))
     → sum_counts (blockIndex (memory (poll 10 4 chain_s state_s [14; 14; 16]))) = 4).
Proof.
  apply (total_is_interval 10 4 chain_s 13 [14; 14; 16] state_s).
  - unfold interval_ok. lia.
  - unfold height_ok. lia.
  - repeat constructor; unfold height_ok; lia.
  - vm_compute. reflexivity.
  - vm_compute. reflexivity.
Defined.

(** ** What a turn of the polling loop prints and asks *)

Lemma omap_adding_added chain l :
  omap adding_of (l ≫= fetch_events LogAdding chain) = l.
Proof.
  induction l as [|h l IH]; [done|]. rewrite bind_cons, omap_app, IH.
  unfold fetch_events, GetBlockCollated. by destruct (chain h).
Qed.

Lemma omap_removing_removed chain l :
  omap removing_of (l ≫= fetch_events LogRemoving chain) = l.
Proof.
  induction l as [|h l IH]; [done|]. rewrite bind_cons, omap_app, IH.
  unfold fetch_events, GetBlockCollated. by destruct (chain h).
Qed.

Lemma omap_adding_removed chain l :
  omap adding_of (l ≫= fetch_events LogRemoving chain) = [].
Proof.
  induction l as [|h l IH]; [done|]. rewrite bind_cons, omap_app, IH.
  unfold fetch_events, GetBlockCollated. by destruct (chain h).
Qed.

Lemma omap_removing_added chain l :
  omap removing_of (l ≫= fetch_events LogAdding chain) = [].
Proof.
  induction l as [|h l IH]; [done|]. rewrite bind_cons, omap_app, IH.
  unfold fetch_events, GetBlockCollated. by destruct (chain h).
Qed.

Lemma omap_rpc_fetched tag chain l :
  (∀ i, rpc_of (tag i) = None) →
  omap rpc_of (l ≫= fetch_events tag chain) = l.
Proof.
  intros Htag. induction l as [|h l IH]; [done|]. rewrite bind_cons, omap_app, IH.
  unfold fetch_events, GetBlockCollated.
  destruct (chain h); cbn [omap list_omap app]; by rewrite Htag.
Qed.

Lemma elem_of_countdown hi (n : nat) j :
  j ∈ countdown hi n ↔ hi - Z.of_nat n < j ≤ hi.
Proof.
  unfold countdown. rewrite list_elem_of_fmap. split.
  - intros (k & -> & Hk). apply elem_of_seq in Hk. lia.
  - intros Hj. exists (Z.to_nat (hi - j)). split; [lia|].
    apply elem_of_seq. lia.
Qed.

(** The adding loop visits the heights above the old one, up to the new
    one. *)
Lemma elem_of_added_heights cur newHeight h :
  cur ≤ newHeight → h ∈ added_heights cur newHeight ↔ cur < h ≤ newHeight.
Proof.
  intros Hle. unfold added_heights. rewrite elem_of_countdown. lia.
Qed.

(** The removing loop visits the heights from [newHeight - interval] on. *)
Lemma elem_of_removed_heights interval cur newHeight h :
  h ∈ removed_heights interval cur newHeight
  ↔ newHeight - interval ≤ h < newHeight - interval + (newHeight - cur).
Proof. unfold removed_heights. apply elem_of_seqZ. Qed.

(** A finished forward step, as seen from outside: the new height is
    stored, one block is added for each height from [newHeight] down to
    [currentHeight + 1], as many heights are removed, and each of these
    costs one fetch. *)
Lemma Advance_Running_history fuel interval chain s newHeight s' :
  interval_ok interval → height_ok (currentHeight s) → height_ok newHeight →
  currentHeight s < newHeight →
  Advance fuel interval chain s newHeight = Running s' →
  let adds := added_heights (currentHeight s) newHeight in
  let rems := removed_heights interval (currentHeight s) newHeight in
  currentHeight s' = newHeight ∧
  blockIndex s' = untally (tally (blockIndex s) (booked chain <$> adds))
                    (booked chain <$> rems) ∧
  Forall (λ h, is_Some (chain h)) (adds ++ rems) ∧
  ∃ evs, history s' = history s ++ evs ∧
         omap adding_of evs = adds ∧
         omap removing_of evs = rems ∧
         omap rpc_of evs = adds ++ rems.
Proof.
  intros HW Hcur Hnew Hlt Hrun adds rems.
  apply Advance_Running in Hrun as (Hadds & Hrems & ->); [|done..].
  fold adds rems in Hadds, Hrems |- *.
  split; [done|]. split; [done|]. split; [by apply Forall_app|].
  exists (LogNewHeight newHeight (currentHeight s) (newHeight - currentHeight s)
            :: (adds ≫= fetch_events LogAdding chain)
            ++ (rems ≫= fetch_events LogRemoving chain)
            ++ PrintBlockSummary
                 (untally (tally (blockIndex s) (booked chain <$> adds))
                    (booked chain <$> rems)) newHeight interval).
  split.
  - unfold history. cbn [log trace].
    rewrite !reverse_app, !reverse_involutive, reverse_cons.
    by rewrite <- !app_assoc.
  - cbn [omap list_omap adding_of removing_of rpc_of].
    rewrite !omap_app, omap_adding_added, omap_adding_removed,
      omap_removing_added, omap_removing_removed, !omap_rpc_fetched by done.
    by rewrite !app_nil_r.
Qed.

(** ** The turn that finds no new block *)

(** C9. A turn of the polling loop that reads the height it already has
    only sleeps: no block is fetched, the histogram and the height stay as
    they are. *)
Theorem Advance_same_height_is_noop fuel interval chain s :
  ∃ s', Advance fuel interval chain s (currentHeight s) = Running s' ∧
        currentHeight s' = currentHeight s ∧
        blockIndex s' = blockIndex s ∧
        history s' = history s ++ [Sleep] ∧
        omap rpc_of (history s') = omap rpc_of (history s).
Proof.
  exists (log s [Sleep]). rewrite Advance_still.
  assert (history (log s [Sleep]) = history s ++ [Sleep]) as Hhist.
  { unfold history. cbn [log trace].
    by rewrite reverse_app, reverse_involutive. }
  repeat split; try done.
  by rewrite Hhist, omap_app, app_nil_r.
Qed.

(** ** The turn that reads a lower height *)

(** C8, as stated, fails: from the scan at height 20000 a turn that reads
    height 19999 raises nothing and stores the lower height. *)
Lemma Advance_lower_height_counterexample :
  succeeded (Initialize fuel_a BLOCK_BIP9_INTERVAL chain_a 20000) = true ∧
  currentHeight state_a = 20000 ∧
  died (Advance fuel_a BLOCK_BIP9_INTERVAL chain_a state_a 19999) = false ∧
  succeeded (Advance fuel_a BLOCK_BIP9_INTERVAL chain_a state_a 19999) = true ∧
  currentHeight (memory (Advance fuel_a BLOCK_BIP9_INTERVAL chain_a state_a 19999))
  = 19999.
Proof. by_running. Qed.

(** C8, amended. A turn of the polling loop that reads a lower height
    raises no error: neither loop runs, so no block is fetched and the
    histogram is left as it is (no count is decremented), and the lower
    height is stored as the current one. *)
Theorem Advance_lower_height fuel interval chain s newHeight :
  interval_ok interval → height_ok (currentHeight s) → height_ok newHeight →
  newHeight < currentHeight s → (0 < fuel)%nat →
  ∃ s', Advance fuel interval chain s newHeight = Running s' ∧
        blockIndex s' = blockIndex s ∧
        currentHeight s' = newHeight ∧
        omap rpc_of (history s') = omap rpc_of (history s) ∧
        omap removing_of (history s') = omap removing_of (history s).
Proof.
  intros HW Hcur Hnew Hlt Hfuel. eexists. split; [by apply Advance_backward|].
  split; [done|]. split; [done|].
  unfold history, PrintBlockSummary. cbn [log trace].
  rewrite reverse_app, reverse_involutive, reverse_cons, !omap_app.
  cbn [omap list_omap rpc_of removing_of]. by rewrite !app_nil_r.
Qed.

Lemma Advance_lower_height_witness :
  ∃ s', Advance 10 4 chain_s state_s 12 = Running s' ∧
        blockIndex s' = blockIndex state_s ∧
        currentHeight s' = 12 ∧
        omap rpc_of (history s') = omap rpc_of (history state_s) ∧
        omap removing_of (history s') = omap removing_of (history state_s).
Proof.
  apply (Advance_lower_height 10 4 chain_s state_s 12).
  - unfold interval_ok. lia.
  - vm_compute. split; [discriminate|reflexivity].
  - unfold height_ok. lia.
  - vm_compute. reflexivity.
  - lia.
Defined.

(** ** The turn that jumps a whole window *)

(** C5, as stated, fails: from the scan at height 20000 a turn that reads
    height 28065 (8065 blocks later, the window holding 8064) goes through
    the removing loop 8065 times and ends with a histogram that still
    counts a version 1 block; the window ending at 28065 has none, and a
    fresh scan at 28065 counts none. *)
Lemma Advance_full_rotation_counterexample :
  succeeded (Initialize fuel_a BLOCK_BIP9_INTERVAL chain_a 20000) = true ∧
  succeeded (Advance fuel_a BLOCK_BIP9_INTERVAL chain_a state_a 28065) = true ∧
  length (omap removing_of
            (trace (memory (Advance fuel_a BLOCK_BIP9_INTERVAL chain_a state_a 28065))))
  = Z.to_nat 8065 ∧
  count (blockIndex (memory (Advance fuel_a BLOCK_BIP9_INTERVAL chain_a state_a 28065))) 1
  = 1 ∧
  count (blockIndex (memory (Initialize fuel_a BLOCK_BIP9_INTERVAL chain_a 28065))) 1
  = 0 ∧
  count (rescan BLOCK_BIP9_INTERVAL chain_a 28065) 1 = 0.
Proof. by_running. Qed.

(** C5, amended. A finished turn that jumps a whole window or more does
    not start over: it keeps the histogram and updates it as for any other
    jump, with one fetch and one increment for each height from
    [newHeight] down to [currentHeight + 1] and as many fetches and
    decrements, and stores the new height. *)
Theorem Advance_full_rotation_is_incremental fuel interval chain s newHeight s' :
  interval_ok interval → height_ok (currentHeight s) → height_ok newHeight →
  interval ≤ newHeight - currentHeight s →
  Advance fuel interval chain s newHeight = Running s' →
  currentHeight s' = newHeight ∧
  ∃ removed evs,
    length removed = Z.to_nat (newHeight - currentHeight s) ∧
    blockIndex s'
    = untally (tally (blockIndex s)
                 (booked chain <$> added_heights (currentHeight s) newHeight))
        (booked chain <$> removed) ∧
    history s' = history s ++ evs ∧
    omap adding_of evs = added_heights (currentHeight s) newHeight ∧
    omap removing_of evs = removed ∧
    omap rpc_of evs = added_heights (currentHeight s) newHeight ++ removed.
Proof.
  intros HW Hcur Hnew Hjump Hrun.
  apply Advance_Running_history in Hrun
    as (Hh & Hm & _ & evs & Hhist & Hadd & Hrem & Hrpc); [|done..|int_range].
  split; [done|].
  exists (removed_heights interval (currentHeight s) newHeight), evs.
  by rewrite length_removed_heights.
Qed.

Lemma Advance_full_rotation_is_incremental_witness :
  currentHeight (memory (Advance 10 4 chain_s state_s 18)) = 18 ∧
  ∃ removed evs,
    length removed = Z.to_nat (18 - currentHeight state_s) ∧
    blockIndex (memory (Advance 10 4 chain_s state_s 18))
    = untally (tally (blockIndex state_s)
                 (booked chain_s <$> added_heights (currentHeight state_s) 18))
        (booked chain_s <$> removed) ∧
    history (memory (Advance 10 4 chain_s state_s 18)) = history state_s ++ evs ∧
    omap adding_of evs = added_heights (currentHeight state_s) 18 ∧
    omap removing_of evs = removed ∧
    omap rpc_of evs = added_heights (currentHeight state_s) 18 ++ removed.
Proof.
  apply (Advance_full_rotation_is_incremental 10 4 chain_s state_s 18).
  - unfold interval_ok. lia.
  - vm_compute. split; [discriminate|reflexivity].
  - unfold height_ok. lia.
  - vm_compute. discriminate.
  - vm_compute. reflexivity.
Defined.

(** ** The turn in which a fetch fails *)

Lemma for_loop_inv {St} (P : St → Prop) (cond : Z → bool) (post : Z → Z)
    (body : Z → St → outcome St) :
  (∀ i s s', P s → body i s = Running s' ∨ body i s = Fatal s' → P s') →
  ∀ fuel i s s',
    P s →
    for_loop fuel cond post body i s = Running s'
    ∨ for_loop fuel cond post body i s = Fatal s' →
    P s'.
Proof.
  intros Hbody. induction fuel as [|fuel IH]; intros i s s' Hs Hrun.
  - by destruct Hrun.
  - cbn [for_loop] in Hrun. destruct (cond i).
    + destruct (body i s) as [s1|s1|] eqn:Hb.
      * apply (IH (post i) s1 s'); [|done]. apply (Hbody i s s1 Hs). by left.
      * destruct Hrun as [[=]|[= <-]]. apply (Hbody i s s1 Hs). by right.
      * by destruct Hrun.
    + destruct Hrun as [[= <-]|[=]]. done.
Qed.

Lemma fetch_body_height upd tag chain i s s' :
  fetch_body upd tag chain i s = Running s' ∨ fetch_body upd tag chain i s = Fatal s' →
  currentHeight s' = currentHeight s.
Proof.
  unfold fetch_body, GetBlockCollated.
  destruct (chain i); intros [[=]|[=]]; by subst.
Qed.

Lemma for_loop_fetch_height fuel cond post upd tag chain i s s' :
  for_loop fuel cond post (fetch_body upd tag chain) i s = Running s'
  ∨ for_loop fuel cond post (fetch_body upd tag chain) i s = Fatal s' →
  currentHeight s' = currentHeight s.
Proof.
  intros Hrun.
  eapply (for_loop_inv (λ x, currentHeight x = currentHeight s)); [|reflexivity|exact Hrun].
  intros j x x' Hx Hb. rewrite <- Hx. by eapply fetch_body_height.
Qed.

(** A turn that dies leaves the stored height as it was. *)
Lemma Advance_Fatal_height fuel interval chain s newHeight s' :
  Advance fuel interval chain s newHeight = Fatal s' →
  currentHeight s' = currentHeight s.
Proof.
  unfold Advance. destruct (negb (newHeight =? currentHeight s)); [|done].
  rewrite add_body_fetch, remove_body_fetch.
  destruct (for_loop fuel _ _ (fetch_body incr LogAdding chain) newHeight _)
    as [s2|s2|] eqn:Hadd; [|intros [= <-]|done].
  - pose proof (for_loop_fetch_height _ _ _ _ _ _ _ _ _ (or_introl Hadd)) as H2.
    cbn [log currentHeight] in H2.
    destruct (for_loop fuel _ _ (fetch_body decr LogRemoving chain) _ s2)
      as [s3|s3|] eqn:Hrem; [done|intros [= <-]|done].
    pose proof (for_loop_fetch_height _ _ _ _ _ _ _ _ _ (or_intror Hrem)) as H3.
    congruence.
  - exact (for_loop_fetch_height _ _ _ _ _ _ _ _ _ (or_intror Hadd)).
Qed.

(** C6, as stated, fails: with block 20001 not served, the turn from
    height 20000 to 20002 dies after it has tallied block 20002; the
    histogram the process ends with is not the one the turn started from. *)
Lemma Advance_fetch_failure_counterexample :
  chain_b 20001 = None ∧
  succeeded (Initialize fuel_a BLOCK_BIP9_INTERVAL chain_b 20000) = true ∧
  died (Advance fuel_a BLOCK_BIP9_INTERVAL chain_b state_b 20002) = true ∧
  count (blockIndex state_b) 536870912 = 8062 ∧
  count (blockIndex (memory (Advance fuel_a BLOCK_BIP9_INTERVAL chain_b state_b 20002)))
    536870912 = 8063.
Proof. by_running. Qed.

(** C6, amended. In a forward turn every fetch that fails is fatal: a turn
    that finishes has had all its fetches answered, and a turn that dies
    leaves the stored height as it was. It dies at its first failing
    fetch, and what it changed before stays changed: when the fetches of
    the turn (the adding loop's, then the removing loop's) are answered on
    [l1] and fail next on [h], the process exits right after the fetch of
    [h], with the added blocks of [l1] tallied and the removed ones
    untallied on top of the histogram the turn started from. *)
Theorem Advance_fetch_failure_is_fatal fuel interval chain s newHeight :
  interval_ok interval → height_ok (currentHeight s) → height_ok newHeight →
  currentHeight s < newHeight →
  (∀ s', Advance fuel interval chain s newHeight = Running s' →
         ∃ evs, history s' = history s ++ evs ∧
                Forall (λ h, is_Some (chain h)) (omap rpc_of evs))
  ∧ (∀ s', Advance fuel interval chain s newHeight = Fatal s' →
           currentHeight s' = currentHeight s)
  ∧ (∀ l1 h l2,
       added_heights (currentHeight s) newHeight
         ++ removed_heights interval (currentHeight s) newHeight
       = l1 ++ h :: l2 →
       Forall (λ j, is_Some (chain j)) l1 →
       chain h = None →
       (Z.to_nat (newHeight - currentHeight s) < fuel)%nat →
       ∃ s' evs,
         Advance fuel interval chain s newHeight = Fatal s' ∧
         currentHeight s' = currentHeight s ∧
         blockIndex s'
         = untally
             (tally (blockIndex s)
                (booked chain <$> take (Z.to_nat (newHeight - currentHeight s)) l1))
             (booked chain <$> drop (Z.to_nat (newHeight - currentHeight s)) l1) ∧
         history s' = history s ++ evs ∧
         omap rpc_of evs = l1 ++ [h] ∧
         last evs = Some (LogFatal (RpcError h))).
Proof.
  intros HW Hcur Hnew Hlt. split; [|split].
  - intros s' Hrun.
    apply Advance_Running_history in Hrun
      as (_ & _ & Hall & evs & Hhist & _ & _ & Hrpc); [|done..].
    exists evs. by rewrite Hrpc.
  - intros s'. apply Advance_Fatal_height.
  - intros l1 h l2 Hsplit Hl1 Hnone Hfuel.
    rewrite Advance_forward, add_body_fetch, remove_body_fetch by done.
    rewrite <- (length_added_heights (currentHeight s) newHeight).
    apply app_eq_inv in Hsplit as [(l & Hadds & Hl)|(l & -> & Hrems)].
    + destruct l as [|x l].
      * (* the first removal fails *)
        rewrite app_nil_r in Hadds. subst l1. cbn [app] in Hl.
        rewrite <- Hl, run_fetch_ok by done.
        rewrite (run_fetch_fatal _ _ _ [] h l2) by done.
        eexists _, (LogNewHeight newHeight (currentHeight s) (newHeight - currentHeight s)
                      :: (added_heights (currentHeight s) newHeight
                            ≫= fetch_events LogAdding chain)
                      ++ [LogRemoving h; Rpc h; LogFatal (RpcError h)]).
        split; [done|]. cbn [log currentHeight blockIndex trace].
        split; [done|]. rewrite firstn_all, drop_all.
        split; [done|]. split; [|split].
        -- unfold history. cbn [trace]. change ([] ≫= fetch_events LogRemoving chain) with (@nil event).
           rewrite !reverse_cons, !reverse_app, !reverse_involutive, reverse_singleton.
           rewrite <- !app_assoc. reflexivity.
        -- cbn [omap list_omap rpc_of]. rewrite omap_app, omap_rpc_fetched by done.
           reflexivity.
        -- rewrite app_comm_cons, last_app. reflexivity.
      * (* an addition fails *)
        injection Hl as <- ->. rewrite Hadds, run_fetch_fatal by done.
        eexists _, (LogNewHeight newHeight (currentHeight s) (newHeight - currentHeight s)
                      :: (l1 ≫= fetch_events LogAdding chain)
                      ++ [LogAdding h; Rpc h; LogFatal (RpcError h)]).
        split; [done|]. cbn [log currentHeight blockIndex trace].
        split; [done|].
        rewrite take_ge, drop_ge by (rewrite length_app; cbn [length]; lia).
        split; [done|]. split; [|split].
        -- unfold history. cbn [trace].
           rewrite !reverse_cons, !reverse_app, !reverse_involutive, reverse_singleton.
           rewrite <- !app_assoc. reflexivity.
        -- cbn [omap list_omap rpc_of]. rewrite omap_app, omap_rpc_fetched by done.
           reflexivity.
        -- rewrite app_comm_cons, last_app. reflexivity.
    + (* a removal fails *)
      apply Forall_app in Hl1 as [Hadds Hl].
      rewrite run_fetch_ok, Hrems, run_fetch_fatal by done.
      eexists _, (LogNewHeight newHeight (currentHeight s) (newHeight - currentHeight s)
                    :: (added_heights (currentHeight s) newHeight
                          ≫= fetch_events LogAdding chain)
                    ++ (l ≫= fetch_events LogRemoving chain)
                    ++ [LogRemoving h; Rpc h; LogFatal (RpcError h)]).
      split; [done|]. cbn [log currentHeight blockIndex trace].
      split; [done|]. rewrite take_app_length, drop_app_length.
      split; [done|]. split; [|split].
      * unfold history. cbn [trace].
        rewrite !reverse_cons, !reverse_app, !reverse_involutive, reverse_singleton.
        rewrite <- !app_assoc. reflexivity.
      * cbn [omap list_omap rpc_of]. rewrite !omap_app, !omap_rpc_fetched by done.
        rewrite <- app_assoc. reflexivity.
      * rewrite app_comm_cons, !app_assoc, last_app. reflexivity.
Qed.

Lemma Advance_fetch_failure_is_fatal_witness :
  ∃ s' evs,
    Advance 10 4 chain_t state_s 16 = Fatal s' ∧
    currentHeight s' = currentHeight state_s ∧
    blockIndex s'
    = untally
        (tally (blockIndex state_s)
           (booked chain_t <$> take (Z.to_nat (16 - currentHeight state_s)) [16]))
        (booked chain_t <$> drop (Z.to_nat (16 - currentHeight state_s)) [16]) ∧
    history s' = history state_s ++ evs ∧
    omap rpc_of evs = [16] ++ [15] ∧
    last evs = Some (LogFatal (RpcError 15)).
Proof.
  assert (interval_ok 4) as HW by (unfold interval_ok; lia).
  assert (height_ok (currentHeight state_s)) as Hcur
    by (vm_compute; split; [discriminate|reflexivity]).
  assert (height_ok 16) as Hnew by (unfold height_ok; lia).
  assert (currentHeight state_s < 16) as Hlt by (vm_compute; reflexivity).
  apply (proj2 (proj2 (Advance_fetch_failure_is_fatal 10 4 chain_t state_s 16
                         HW Hcur Hnew Hlt)) [16] 15 [14; 12; 13; 14]).
  - vm_compute. reflexivity.
  - repeat constructor. by eexists.
  - reflexivity.
  - vm_compute. lia.
Defined.

(** ** The initial scan when a fetch fails *)

Lemma count_empty k : count ∅ k = 0.
Proof. unfold count. by rewrite lookup_empty. Qed.

Lemma count_in_int_incr m v k : in_int (count m k) → in_int (count (incr m v) k).
Proof.
  intros Hk. rewrite count_incr. destruct (decide (v = k)); [|done].
  apply wrap_in_int.
Qed.

(** The count of a version after tallying a list of versions. *)
Lemma count_tally vs k :
  ∀ m, in_int (count m k) →
       count (tally m vs) k
       = wrap (count m k + Z.of_nat (length (filter (λ v, v = k) vs))).
Proof.
  unfold tally. induction vs as [|v vs IH]; intros m Hk; cbn [foldl].
  - rewrite filter_nil. cbn [length]. rewrite Z.add_0_r. by rewrite wrap_small.
  - rewrite IH by by apply count_in_int_incr.
    rewrite count_incr, filter_cons.
    destruct (decide (v = k)) as [->|Hne].
    + unfold int_add. rewrite wrap_add_l. cbn [length]. f_equal. lia.
    + done.
Qed.

Lemma omap_rpc_scanned chain l : omap rpc_of (l ≫= scan_events chain) = l.
Proof.
  induction l as [|h l IH]; [done|]. rewrite bind_cons, omap_app, IH.
  unfold scan_events, GetBlockCollated. by destruct (chain h).
Qed.

(** C10. The initial scan goes on past a failed fetch: it prints the error,
    books the height under version 0 (the zero [GetBlockCollated] returns
    with an error) and fetches the rest of the window. It ends with
    [interval] blocks tallied, version 0 holding one for every height that
    failed or really carries version 0. *)
Theorem Initialize_tallies_failed_fetch_as_zero fuel interval chain h :
  interval_ok interval → height_ok h → (Z.to_nat interval < fuel)%nat →
  ∃ s, Initialize fuel interval chain h = Running s ∧
       currentHeight s = h ∧
       omap rpc_of (history s) = window interval h ∧
       blockIndex s = tally ∅ (booked chain <$> window interval h) ∧
       total (blockIndex s) = interval ∧
       count (blockIndex s) 0
       = Z.of_nat (length (filter (λ v, v = 0) (booked chain <$> window interval h))) ∧
       ∀ j, j ∈ window interval h → chain j = None →
            booked chain j = 0 ∧ LogErr (RpcError j) ∈ history s.
Proof.
  intros HW Hh Hfuel. eexists. split; [by apply Initialize_run|].
  pose proof (Initialize_total fuel interval chain h _ HW Hh
                (Initialize_run fuel interval chain h HW Hh Hfuel))
    as (_ & Htot & _).
  cbn [log currentHeight blockIndex trace] in *.
  split; [done|]. split; [|split; [done|split; [done|split]]].
  - unfold history. cbn [log trace].
    rewrite reverse_app, !reverse_involutive, omap_app, omap_rpc_scanned.
    apply app_nil_r.
  - unfold rescan. rewrite count_tally by (rewrite count_empty; int_range).
    rewrite count_empty, Z.add_0_l. apply wrap_small.
    pose proof (length_filter (λ v, v = 0) (booked chain <$> window interval h)) as Hlen.
    unfold window in Hlen. rewrite length_fmap, length_seqZ in Hlen.
    unfold window. int_range.
  - intros j Hj Hnone. split.
    + unfold booked, GetBlockCollated. by rewrite Hnone.
    + unfold history. cbn [log trace].
      rewrite reverse_app, !reverse_involutive. apply elem_of_app. left.
      apply list_elem_of_bind. exists j. split; [|done].
      unfold scan_events, GetBlockCollated. rewrite Hnone.
      apply elem_of_cons. right. apply elem_of_cons. right.
      apply elem_of_cons. by left.
Qed.

Lemma Initialize_tallies_failed_fetch_as_zero_witness :
  ∃ s, Initialize 10 4 chain_u 13 = Running s ∧
       currentHeight s = 13 ∧
       omap rpc_of (history s) = window 4 13 ∧
       blockIndex s = tally ∅ (booked chain_u <$> window 4 13) ∧
       total (blockIndex s) = 4 ∧
       count (blockIndex s) 0
       = Z.of_nat (length (filter (λ v, v = 0) (booked chain_u <$> window 4 13))) ∧
       ∀ j, j ∈ window 4 13 → chain_u j = None →
            booked chain_u j = 0 ∧ LogErr (RpcError j) ∈ history s.
Proof.
  apply (Initialize_tallies_failed_fetch_as_zero 10 4 chain_u 13).
  - unfold interval_ok. lia.
  - unfold height_ok. lia.
  - vm_compute. lia.
Defined.

(** C7: where the code leaves the claim. With block 15000 not served, the
    initial scan at height 20000 does not fail: it finishes, and books
    block 15000 as the one block of version 0 among its 8064. *)
Theorem Initialize_survives_failed_fetch :
  chain_c 15000 = None ∧
  succeeded (Initialize fuel_a BLOCK_BIP9_INTERVAL chain_c 20000) = true ∧
  died (Initialize fuel_a BLOCK_BIP9_INTERVAL chain_c 20000) = false ∧
  count (blockIndex (memory (Initialize fuel_a BLOCK_BIP9_INTERVAL chain_c 20000))) 0 = 1 ∧
  total (blockIndex (memory (Initialize fuel_a BLOCK_BIP9_INTERVAL chain_c 20000)))
  = BLOCK_BIP9_INTERVAL.
Proof. by_running. Qed.

(** ** The turn that adds one block *)

Lemma count_in_int_decr m v k : in_int (count m k) → in_int (count (decr m v) k).
Proof.
  intros Hk. rewrite count_decr. destruct (decide (v = k)); [|done].
  apply wrap_in_int.
Qed.

Lemma count_untally vs k :
  ∀ m, in_int (count m k) →
       count (untally m vs) k
       = wrap (count m k - Z.of_nat (length (filter (λ v, v = k) vs))).
Proof.
  unfold untally. induction vs as [|v vs IH]; intros m Hk; cbn [foldl].
  - rewrite filter_nil. cbn [length]. rewrite Z.sub_0_r. by rewrite wrap_small.
  - rewrite IH by by apply count_in_int_decr.
    rewrite count_decr, filter_cons.
    destruct (decide (v = k)) as [->|Hne]; [|done].
    unfold int_sub. cbn [length].
    replace (wrap (count m k - 1) - Z.of_nat (length (filter (λ v, v = k) vs)))
      with (wrap (count m k - 1) + - Z.of_nat (length (filter (λ v, v = k) vs))) by lia.
    rewrite wrap_add_l. f_equal. lia.
Qed.

Lemma count_rescan interval chain h k :
  interval_ok interval →
  count (rescan interval chain h) k
  = Z.of_nat (length (filter (λ v, v = k) (booked chain <$> window interval h))).
Proof.
  intros HW. unfold rescan.
  rewrite count_tally by (rewrite count_empty; int_range).
  rewrite count_empty, Z.add_0_l. apply wrap_small.
  pose proof (length_filter (λ v, v = k) (booked chain <$> window interval h)) as Hlen.
  unfold window in Hlen. rewrite length_fmap, length_seqZ in Hlen.
  unfold window. int_range.
Qed.

Lemma wrap_value z z' : z = z' → in_int z' → wrap z = z'.
Proof. intros ->. apply wrap_small. Qed.

Lemma window_head interval h :
  0 < interval →
  window interval h = (h - interval + 1) :: seqZ (h - interval + 2) (interval - 1).
Proof.
  intros HW. unfold window. rewrite seqZ_cons by done. do 2 f_equal; lia.
Qed.

Lemma window_next interval h :
  0 < interval →
  window interval (h + 1) = seqZ (h - interval + 2) (interval - 1) ++ [h + 1].
Proof.
  intros HW. unfold window.
  transitivity (seqZ (h - interval + 2) ((interval - 1) + 1)); [f_equal; lia|].
  rewrite seqZ_app by lia. f_equal.
  replace (h - interval + 2 + (interval - 1)) with (h + 1) by lia.
  reflexivity.
Qed.

(** Where the removing loop is right: a finished turn that adds a single
    block to a histogram that agrees with the window leaves a histogram
    that agrees with the window one block further, count by count. *)
Lemma Advance_one_block_matches_rescan fuel interval chain s s' :
  interval_ok interval → height_ok (currentHeight s) →
  height_ok (currentHeight s + 1) →
  (∀ k, count (blockIndex s) k = count (rescan interval chain (currentHeight s)) k) →
  Advance fuel interval chain s (currentHeight s + 1) = Running s' →
  ∀ k, count (blockIndex s') k
       = count (rescan interval chain (currentHeight s + 1)) k.
Proof.
  intros HW Hcur Hnew Hagree Hrun k.
  apply Advance_Running_history in Hrun as (_ & -> & _); [|done..|lia].
  unfold added_heights, removed_heights.
  replace (currentHeight s + 1 - currentHeight s) with 1 by lia.
  change (countdown (currentHeight s + 1) (Z.to_nat 1))
    with [currentHeight s + 1 - 0].
  change (seqZ (currentHeight s + 1 - interval) 1)
    with [currentHeight s + 1 - interval].
  rewrite Z.sub_0_r.
  assert (0 ≤ count (blockIndex s) k ≤ interval) as Hc.
  { rewrite Hagree, count_rescan by done.
    pose proof (length_filter (λ v, v = k)
                  (booked chain <$> window interval (currentHeight s))) as Hlen.
    unfold window in Hlen. rewrite length_fmap, length_seqZ in Hlen.
    unfold window. int_range. }
  rewrite count_untally by (apply count_in_int_incr; int_range).
  rewrite count_tally by int_range.
  rewrite Hagree, !count_rescan by done.
  rewrite window_head, window_next by int_range.
  replace (currentHeight s - interval + 1)
    with (currentHeight s + 1 - interval) by lia.
  set (T := seqZ (currentHeight s - interval + 2) (interval - 1)).
  assert (Z.of_nat (length (filter (λ v, v = k) (booked chain <$> T))) < interval) as Ht.
  { pose proof (length_filter (λ v, v = k) (booked chain <$> T)) as Hlen.
    subst T. rewrite length_fmap, length_seqZ in Hlen. int_range. }
  rewrite fmap_app, !fmap_cons, !fmap_nil, filter_app, !filter_cons, !filter_nil.
  destruct (decide (booked chain (currentHeight s + 1) = k));
    destruct (decide (booked chain (currentHeight s + 1 - interval) = k));
    rewrite ?length_app; cbn [length];
    rewrite <- (Z.add_opp_r (wrap _)), wrap_add_l;
    (apply wrap_value; [cbn [length]; lia|int_range]).
Qed.

(** A forward turn finishes when the node answers every fetch it makes
    and the fuel covers the jump. *)
Lemma Advance_finishes fuel interval chain s newHeight :
  interval_ok interval → height_ok (currentHeight s) → height_ok newHeight →
  currentHeight s < newHeight →
  Forall (λ h, is_Some (chain h)) (added_heights (currentHeight s) newHeight) →
  Forall (λ h, is_Some (chain h))
    (removed_heights interval (currentHeight s) newHeight) →
  (Z.to_nat (newHeight - currentHeight s) < fuel)%nat →
  ∃ s', Advance fuel interval chain s newHeight = Running s'.
Proof.
  intros HW Hcur Hnew Hlt Hadds Hrems Hfuel.
  rewrite Advance_forward, add_body_fetch, remove_body_fetch by done.
  rewrite run_fetch_ok by done. rewrite run_fetch_ok by done. by eexists.
Qed.

(** Scenario A of the specification: a window of four blocks at heights
    10-13 with versions 1, 1, 2, 1, then block 14 of version 2 arrives. *)
Example scenario_A :
  count (blockIndex state_s) 1 = 3 ∧
  count (blockIndex state_s) 2 = 1 ∧
  succeeded (Advance 10 4 chain_s state_s 14) = true ∧
  count (blockIndex (memory (Advance 10 4 chain_s state_s 14))) 1 = 2 ∧
  count (blockIndex (memory (Advance 10 4 chain_s state_s 14))) 2 = 2 ∧
  total (blockIndex (memory (Advance 10 4 chain_s state_s 14))) = 4.
Proof. by_running. Qed.

(** ** The turn that adds more than one block *)

(** C1: where the code leaves the claim. From the scan at height 20000
    (window 11937 .. 20000) the turn to height 20002 adds 20002 and 20001
    but removes 11938 and 11939, not 11937 and 11938: block 11937, of
    version 1, stays counted and block 11939, of version 2, is dropped,
    unlike in a fresh scan at 20002. *)
Theorem Advance_two_blocks_removes_wrong_heights :
  succeeded (Initialize fuel_a BLOCK_BIP9_INTERVAL chain_a 20000) = true ∧
  succeeded (Advance fuel_a BLOCK_BIP9_INTERVAL chain_a state_a 20002) = true ∧
  currentHeight state_a - BLOCK_BIP9_INTERVAL + 1 = 11937 ∧
  omap adding_of (drop (length (history state_a))
     (history (memory (Advance fuel_a BLOCK_BIP9_INTERVAL chain_a state_a 20002))))
  = [20002; 20001] ∧
  omap removing_of (drop (length (history state_a))
     (history (memory (Advance fuel_a BLOCK_BIP9_INTERVAL chain_a state_a 20002))))
  = [11938; 11939] ∧
  count (blockIndex (memory (Advance fuel_a BLOCK_BIP9_INTERVAL chain_a state_a 20002))) 1
  = 1 ∧
  count (blockIndex (memory (Initialize fuel_a BLOCK_BIP9_INTERVAL chain_a 20002))) 1
  = 0 ∧
  count (blockIndex (memory (Advance fuel_a BLOCK_BIP9_INTERVAL chain_a state_a 20002))) 2
  = 0 ∧
  count (blockIndex (memory (Initialize fuel_a BLOCK_BIP9_INTERVAL chain_a 20002))) 2
  = 1.
Proof. by_running. Qed.

(** C3: where the code leaves the claim. After the scan at height 20000
    and the finished turns to 20002 and to 20003, block 11939 has been
    removed twice and the count of its version is -1. *)
Theorem poll_count_goes_negative :
  succeeded (Initialize fuel_a BLOCK_BIP9_INTERVAL chain_a 20000) = true ∧
  succeeded (poll fuel_a BLOCK_BIP9_INTERVAL chain_a state_a [20002; 20003]) = true ∧
  chain_a 11939 = Some 2 ∧
  count (blockIndex (memory (poll fuel_a BLOCK_BIP9_INTERVAL chain_a state_a
                               [20002; 20003]))) 2 = -1.
Proof. by_running. Qed.

(** * Further properties of the program *)

(** ** The total of a summary *)

Lemma totalBlocks_over_sum (entries : list (Z * Z)) :
  ∀ a, foldl (λ totalBlocks entry, int_add totalBlocks entry.2) (wrap a) entries
       = wrap (a + foldr (λ entry acc, acc + entry.2) 0 entries).
Proof.
  induction entries as [|[v c] entries IH]; intros a; cbn [foldl foldr].
  - by rewrite Z.add_0_r.
  - unfold int_add at 2. rewrite wrap_add_l, IH. f_equal. cbn [snd]. lia.
Qed.

Lemma sum_counts_foldr (m : gmap Z Z) :
  sum_counts m = foldr (λ entry acc, acc + entry.2) 0 (map_to_list m).
Proof.
  unfold sum_counts. rewrite map_fold_foldr.
  induction (map_to_list m) as [|[v c] l IH]; [done|]. cbn [foldr]. by rewrite IH.
Qed.

(** X1. The total that [PrintBlockSummary] prints does not depend on the
    order in which the [range] over the map yields the entries: in any
    order it is the total the summaries of the model show. *)
Theorem totalBlocks_any_order (m : gmap Z Z) (entries : list (Z * Z)) :
  entries ≡ₚ map_to_list m →
  totalBlocks_over entries = total m.
Proof.
  intros Hperm. unfold totalBlocks_over.
  change 0 with (wrap 0) at 1. rewrite totalBlocks_over_sum, Z.add_0_l.
  rewrite total_wrap_sum, sum_counts_foldr. f_equal.
  apply (foldr_permutation (=) (λ entry acc, acc + entry.2) 0); [|done].
  intros. lia.
Qed.

Lemma totalBlocks_any_order_witness :
  totalBlocks_over [(2, 1); (1, 3)] = total (<[2:=1]> (<[1:=3]> ∅)).
Proof.
  apply (totalBlocks_any_order (<[2:=1]> (<[1:=3]> ∅)) [(2, 1); (1, 3)]).
  vm_compute. first [reflexivity | apply perm_swap].
Defined.

(** ** The retarget calculator off its range *)

(** X2. For a negative height [GetNextBlockRetarget] returns 0: the loop
    is not entered and 0 is not the height. *)
Theorem GetNextBlockRetarget_negative (fuel : nat) (blockNum : Z) :
  blockNum < 0 → (0 < fuel)%nat →
  GetNextBlockRetarget fuel blockNum = Some 0.
Proof.
  intros Hneg Hfuel. unfold GetNextBlockRetarget.
  destruct fuel as [|fuel]; [lia|]. cbn [for_loop].
  replace (0 <? blockNum) with false by (symmetry; apply Z.ltb_ge; lia).
  change (int_mul 0 BLOCK_RETARGET_INTERVAL) with 0.
  by replace (0 =? blockNum) with false by (symmetry; apply Z.eqb_neq; lia).
Qed.

Lemma GetNextBlockRetarget_negative_witness :
  GetNextBlockRetarget 1 (-5) = Some 0.
Proof. apply GetNextBlockRetarget_negative; lia. Defined.

Lemma wrap_divide_32 z : (32 | z) → (32 | wrap z).
Proof.
  intros [k ->]. unfold wrap. rewrite Z.mod_eq by lia.
  exists (k - 576460752303423488
              * ((k * 32 + 9223372036854775808) `div` 18446744073709551616)).
  lia.
Qed.

(** A loop whose condition holds wherever its counter comes, and whose
    body never stops, uses up any fuel. *)
Lemma for_loop_diverges {St} (Inv : Z → Prop) (cond : Z → bool) (post : Z → Z)
    (body : Z → St → outcome St) :
  (∀ i, Inv i → cond i = true ∧ Inv (post i)) →
  (∀ i s, ∃ s', body i s = Running s') →
  ∀ fuel i s, Inv i → for_loop fuel cond post body i s = OutOfFuel.
Proof.
  intros Hinv Hbody. induction fuel as [|fuel IH]; intros i s Hi; [done|].
  cbn [for_loop]. destruct (Hinv i Hi) as [-> Hpost].
  destruct (Hbody i s) as [s' ->]. by apply IH.
Qed.

(** X3. Within 31 of the largest [int] the loop of
    [GetNextBlockRetarget] never ends: its counter runs over multiples of
    32, wraps around, and never reaches the height. *)
Theorem GetNextBlockRetarget_diverges (fuel : nat) (blockNum : Z) :
  int_max - 31 < blockNum →
  GetNextBlockRetarget fuel blockNum = None.
Proof.
  intros Hbig. unfold GetNextBlockRetarget.
  rewrite (for_loop_diverges (λ i, in_int i ∧ (32 | i))); [done| | |].
  - intros i [Hi [k Hk]]. split; [|split].
    + apply Z.ltb_lt. int_range.
    + apply wrap_in_int.
    + apply wrap_divide_32. exists (k + 63). unfold BLOCK_RETARGET_INTERVAL. lia.
  - intros i s. by eexists.
  - split; [int_range|]. by exists 0.
Qed.

Lemma GetNextBlockRetarget_diverges_witness :
  GetNextBlockRetarget 1000 int_max = None.
Proof. apply GetNextBlockRetarget_diverges. unfold int_max. lia. Defined.

(** ** What the initial scan never does, and what it leaves *)

Lemma for_loop_no_fatal {St} (cond : Z → bool) (post : Z → Z)
    (body : Z → St → outcome St) :
  (∀ i s s', body i s ≠ Fatal s') →
  ∀ fuel i s s', for_loop fuel cond post body i s ≠ Fatal s'.
Proof.
  intros Hbody. induction fuel as [|fuel IH]; intros i s s'; [done|].
  cbn [for_loop]. destruct (cond i); [|done].
  destruct (body i s) as [s1|s1|] eqn:Hb; [apply IH| |done].
  by apply Hbody in Hb.
Qed.

(** X4. The initial scan never ends the process, whatever the node
    answers and whatever the height it starts from. *)
Theorem Initialize_never_fatal fuel interval chain h s :
  Initialize fuel interval chain h ≠ Fatal s.
Proof.
  unfold Initialize.
  destruct (for_loop fuel _ _ (scan_body chain) _ _) as [s1|s1|] eqn:Hloop;
    [done| |done].
  apply for_loop_no_fatal in Hloop; [done|].
  intros i x x'. unfold scan_body.
  by destruct (GetBlockCollated chain i) as [[v err] evs].
Qed.

Lemma sum_counts_insert (m : gmap Z Z) k v :
  sum_counts (<[k:=v]> m) = sum_counts m - count m k + v.
Proof.
  unfold count. destruct (m !! k) as [old|] eqn:Hk; simpl.
  - rewrite <- (insert_delete_eq m k v).
    rewrite <- (insert_delete_id m k old Hk) at 2.
    rewrite !sum_counts_insert_fresh by apply lookup_delete_eq. lia.
  - rewrite sum_counts_insert_fresh by done. lia.
Qed.

Lemma count_lookup (m : gmap Z Z) k c : m !! k = Some c → count m k = c.
Proof. unfold count. by intros ->. Qed.

(** Tallying on top of a histogram of [a] blocks whose entries are all
    positive. *)
Lemma tally_exact vs :
  ∀ m a,
    sum_counts m = a → (∀ k c, m !! k = Some c → 1 ≤ c ≤ a) → 0 ≤ a →
    a + Z.of_nat (length vs) ≤ int_max →
    sum_counts (tally m vs) = a + Z.of_nat (length vs)
    ∧ ∀ k c, tally m vs !! k = Some c → 1 ≤ c ≤ a + Z.of_nat (length vs).
Proof.
  unfold tally. induction vs as [|v vs IH]; intros m a Hsum Hent Ha Hmax;
    cbn [foldl length] in *.
  - rewrite Z.add_0_r. split; [done|]. intros k c Hk. by apply (Hent k).
  - assert (0 ≤ count m v ≤ a) as Hv.
    { unfold count. destruct (m !! v) as [c|] eqn:Hc; simpl; [|lia].
      apply Hent in Hc. lia. }
    assert (int_add (count m v) 1 = count m v + 1) as Hadd
      by (apply int_add_small; int_range).
    destruct (IH (incr m v) (a + 1)) as [Hsum' Hent']; [| |lia|lia|].
    + unfold incr. rewrite sum_counts_insert, Hadd. lia.
    + intros k c. unfold incr. rewrite lookup_insert, Hadd.
      destruct (decide (v = k)); [intros [= <-]; lia|].
      intros Hk. apply Hent in Hk. lia.
    + split; [lia|]. intros k c Hk. apply Hent' in Hk. lia.
Qed.

Lemma lookup_tally vs k :
  ∀ m, is_Some (tally m vs !! k) ↔ is_Some (m !! k) ∨ k ∈ vs.
Proof.
  unfold tally. induction vs as [|v vs IH]; intros m; cbn [foldl].
  - rewrite elem_of_nil. tauto.
  - rewrite IH, elem_of_cons. unfold incr. rewrite lookup_insert.
    destruct (decide (v = k)) as [->|Hne].
    + split; [intros _; right; by left|intros _; left; by eexists].
    + split; [tauto|]. intros [?|[?|?]]; [tauto|by subst|tauto].
Qed.

(** X5. After the initial scan the histogram holds exactly the versions
    the scan booked for the window, each with a count between 1 and the
    window size, and the counts add up to the window size as integers. *)
Theorem Initialize_histogram fuel interval chain h s :
  interval_ok interval → height_ok h →
  Initialize fuel interval chain h = Running s →
  sum_counts (blockIndex s) = interval
  ∧ (∀ k c, blockIndex s !! k = Some c → 1 ≤ c ≤ interval)
  ∧ (∀ k, is_Some (blockIndex s !! k) ↔ k ∈ booked chain <$> window interval h).
Proof.
  intros HW Hh Hrun. apply Initialize_Running in Hrun as ->; [|done..].
  cbn [log blockIndex]. unfold rescan.
  assert (Z.of_nat (length (booked chain <$> window interval h)) = interval) as Hlen.
  { unfold window. rewrite length_fmap, length_seqZ. int_range. }
  destruct (tally_exact (booked chain <$> window interval h) ∅ 0)
    as [Hsum Hent]; [done|by intros k c; rewrite lookup_empty|done|int_range|].
  rewrite Hlen, Z.add_0_l in Hsum, Hent.
  split; [done|]. split; [done|].
  intros k. rewrite lookup_tally, lookup_empty. split; [intros [[? [=]]|?]; done|by right].
Qed.

Lemma Initialize_histogram_witness :
  sum_counts (blockIndex state_s) = 4
  ∧ (∀ k c, blockIndex state_s !! k = Some c → 1 ≤ c ≤ 4)
  ∧ (∀ k, is_Some (blockIndex state_s !! k) ↔ k ∈ booked chain_s <$> window 4 13).
Proof.
  apply (Initialize_histogram 10 4 chain_s 13 state_s).
  - unfold interval_ok. lia.
  - unfold height_ok. lia.
  - vm_compute. reflexivity.
Defined.

(** ** What a turn of the polling loop keeps *)

Lemma fetch_body_keys upd tag chain i s s' k :
  (∀ m v, is_Some (m !! k) → is_Some (upd m v !! k)) →
  fetch_body upd tag chain i s = Running s' ∨ fetch_body upd tag chain i s = Fatal s' →
  is_Some (blockIndex s !! k) → is_Some (blockIndex s' !! k).
Proof.
  intros Hupd. unfold fetch_body, GetBlockCollated.
  destruct (chain i); intros [[=]|[=]]; subst; cbn [log set_index blockIndex]; auto.
Qed.

Lemma incr_keeps_key m v k : is_Some (m !! k) → is_Some (incr m v !! k).
Proof.
  intros Hk. unfold incr. rewrite lookup_insert. by destruct (decide (v = k)).
Qed.

Lemma decr_keeps_key m v k : is_Some (m !! k) → is_Some (decr m v !! k).
Proof.
  intros Hk. unfold decr. rewrite lookup_insert. by destruct (decide (v = k)).
Qed.

Lemma for_loop_fetch_keys fuel cond post upd tag chain i s s' k :
  (∀ m v, is_Some (m !! k) → is_Some (upd m v !! k)) →
  for_loop fuel cond post (fetch_body upd tag chain) i s = Running s'
  ∨ for_loop fuel cond post (fetch_body upd tag chain) i s = Fatal s' →
  is_Some (blockIndex s !! k) → is_Some (blockIndex s' !! k).
Proof.
  intros Hupd Hrun Hk.
  eapply (for_loop_inv (λ x, is_Some (blockIndex x !! k))); [|exact Hk|exact Hrun].
  intros j x x' Hx Hb. by eapply fetch_body_keys.
Qed.

(** X6. A turn of the polling loop never drops a version from the
    histogram, whether it finishes or dies: a version whose blocks have
    all left the window stays in the map, with whatever count it has. *)
Theorem Advance_keeps_versions fuel interval chain s newHeight s' k :
  Advance fuel interval chain s newHeight = Running s'
  ∨ Advance fuel interval chain s newHeight = Fatal s' →
  is_Some (blockIndex s !! k) → is_Some (blockIndex s' !! k).
Proof.
  unfold Advance. destruct (negb (newHeight =? currentHeight s)).
  2: { by intros [[= <-]|[=]]. }
  rewrite add_body_fetch, remove_body_fetch.
  destruct (for_loop fuel _ _ (fetch_body incr LogAdding chain) newHeight _)
    as [s2|s2|] eqn:Hadd.
  - intros Hrun Hk.
    pose proof (for_loop_fetch_keys _ _ _ _ _ _ _ _ _ k
                  (λ m v, incr_keeps_key m v k) (or_introl Hadd) Hk) as Hk2.
    destruct (for_loop fuel _ _ (fetch_body decr LogRemoving chain) _ s2)
      as [s3|s3|] eqn:Hrem.
    + destruct Hrun as [[= <-]|[=]]. cbn [log blockIndex].
      exact (for_loop_fetch_keys _ _ _ _ _ _ _ _ _ k
               (λ m v, decr_keeps_key m v k) (or_introl Hrem) Hk2).
    + destruct Hrun as [[=]|[= <-]].
      exact (for_loop_fetch_keys _ _ _ _ _ _ _ _ _ k
               (λ m v, decr_keeps_key m v k) (or_intror Hrem) Hk2).
    + by destruct Hrun.
  - intros [[=]|[= <-]] Hk.
    exact (for_loop_fetch_keys _ _ _ _ _ _ _ _ _ k
             (λ m v, incr_keeps_key m v k) (or_intror Hadd) Hk).
  - by intros [|].
Qed.

Lemma Advance_keeps_versions_witness :
  is_Some (blockIndex state_s !! 2)
  ∧ is_Some (blockIndex (memory (Advance 10 4 chain_s state_s 17)) !! 2).
Proof.
  assert (is_Some (blockIndex state_s !! 2)) as Hk
    by (vm_compute; by eexists).
  split; [done|].
  apply (Advance_keeps_versions 10 4 chain_s state_s 17); [|done].
  left. vm_compute. reflexivity.
Defined.

(** ** A forward turn, fetch by fetch *)

Lemma count_in_int_tally vs k : ∀ m, in_int (count m k) → in_int (count (tally m vs) k).
Proof.
  unfold tally. induction vs as [|v vs IH]; intros m Hk; cbn [foldl]; [done|].
  by apply IH, count_in_int_incr.
Qed.

(** X7. A finished forward turn makes two fetches for every new block and
    no other: first the new heights from [newHeight] down to
    [currentHeight + 1], then the heights from [newHeight - interval]
    upwards, as many. Each count ends as its old value plus the blocks of
    that version among the first and minus those among the second. *)
Theorem Advance_forward_turn fuel interval chain s newHeight s' :
  interval_ok interval → height_ok (currentHeight s) → height_ok newHeight →
  currentHeight s < newHeight →
  Advance fuel interval chain s newHeight = Running s' →
  let adds := added_heights (currentHeight s) newHeight in
  let rems := removed_heights interval (currentHeight s) newHeight in
  (∀ h, h ∈ adds ↔ currentHeight s < h ≤ newHeight)
  ∧ (∀ h, h ∈ rems
          ↔ newHeight - interval ≤ h < newHeight - interval + (newHeight - currentHeight s))
  ∧ (∃ evs, history s' = history s ++ evs
            ∧ omap rpc_of evs = adds ++ rems
            ∧ Z.of_nat (length (omap rpc_of evs)) = 2 * (newHeight - currentHeight s))
  ∧ ∀ k, in_int (count (blockIndex s) k) →
         count (blockIndex s') k
         = wrap (count (blockIndex s) k
                 + occurrences k (booked chain <$> adds)
                 - occurrences k (booked chain <$> rems)).
Proof.
  intros HW Hcur Hnew Hlt Hrun adds rems.
  apply Advance_Running_history in Hrun
    as (_ & Hm & _ & evs & Hhist & _ & _ & Hrpc); [|done..].
  fold adds rems in Hm, Hrpc.
  split; [intros h; apply elem_of_added_heights; lia|].
  split; [intros h; apply elem_of_removed_heights|].
  split.
  - exists evs. split; [done|]. split; [done|].
    rewrite Hrpc, length_app. unfold adds, rems.
    rewrite length_added_heights, length_removed_heights. lia.
  - intros k Hk. rewrite Hm.
    rewrite count_untally by by apply count_in_int_tally.
    rewrite count_tally by done. unfold occurrences.
    rewrite <- (Z.add_opp_r (wrap _)), wrap_add_l. f_equal; lia.
Qed.

Lemma Advance_forward_turn_witness :
  (∀ h, h ∈ added_heights (currentHeight state_s) 15
        ↔ currentHeight state_s < h ≤ 15)
  ∧ (∀ h, h ∈ removed_heights 4 (currentHeight state_s) 15
          ↔ 15 - 4 ≤ h < 15 - 4 + (15 - currentHeight state_s))
  ∧ (∃ evs, history (memory (Advance 10 4 chain_s state_s 15)) = history state_s ++ evs
            ∧ omap rpc_of evs
              = added_heights (currentHeight state_s) 15
                  ++ removed_heights 4 (currentHeight state_s) 15
            ∧ Z.of_nat (length (omap rpc_of evs)) = 2 * (15 - currentHeight state_s))
  ∧ ∀ k, in_int (count (blockIndex state_s) k) →
         count (blockIndex (memory (Advance 10 4 chain_s state_s 15))) k
         = wrap (count (blockIndex state_s) k
                 + occurrences k
                     (booked chain_s <$> added_heights (currentHeight state_s) 15)
                 - occurrences k
                     (booked chain_s <$> removed_heights 4 (currentHeight state_s) 15)).
Proof.
  apply (Advance_forward_turn 10 4 chain_s state_s 15).
  - unfold interval_ok. lia.
  - vm_compute. split; [discriminate|reflexivity].
  - unfold height_ok. lia.
  - vm_compute. reflexivity.
  - vm_compute. reflexivity.
Defined.

(** ** Jumps of a whole window and more *)

Lemma countdown_reverse (n : nat) :
  ∀ hi, countdown hi n = reverse (seqZ (hi - Z.of_nat n + 1) (Z.of_nat n)).
Proof.
  induction n as [|n IH]; intros hi; [done|].
  rewrite seqZ_S, reverse_snoc. unfold countdown.
  change (seq 0 (S n)) with (0%nat :: seq 1 n).
  rewrite fmap_cons. f_equal; [lia|].
  rewrite <- fmap_S_seq, <- list_fmap_compose.
  transitivity (countdown (hi - 1) n).
  - apply list_fmap_ext. intros _ k _. simpl. lia.
  - rewrite IH. do 2 f_equal. lia.
Qed.

Lemma occurrences_reverse k (f : Z → Z) l :
  occurrences k (f <$> reverse l) = occurrences k (f <$> l).
Proof.
  unfold occurrences. by rewrite fmap_reverse, filter_reverse, length_reverse.
Qed.

(** The counts after a finished forward turn. *)
Lemma Advance_Running_count fuel interval chain s newHeight s' k :
  interval_ok interval → height_ok (currentHeight s) → height_ok newHeight →
  currentHeight s < newHeight →
  Advance fuel interval chain s newHeight = Running s' →
  in_int (count (blockIndex s) k) →
  count (blockIndex s') k
  = wrap (count (blockIndex s) k
          + occurrences k (booked chain <$> added_heights (currentHeight s) newHeight)
          - occurrences k
              (booked chain <$> removed_heights interval (currentHeight s) newHeight)).
Proof.
  intros HW Hcur Hnew Hlt Hrun Hk.
  apply Advance_Running_history in Hrun as (_ & -> & _); [|done..].
  rewrite count_untally by by apply count_in_int_tally.
  rewrite count_tally by done. unfold occurrences.
  rewrite <- (Z.add_opp_r (wrap _)), wrap_add_l. f_equal; lia.
Qed.

(** X8. A finished turn that jumps the window size plus one changes no
    count: it removes the very blocks it has just added, and the histogram
    still describes the old window. *)
Theorem Advance_window_plus_one_changes_nothing fuel interval chain s s' k :
  interval_ok interval → height_ok (currentHeight s) →
  height_ok (currentHeight s + interval + 1) →
  Advance fuel interval chain s (currentHeight s + interval + 1) = Running s' →
  in_int (count (blockIndex s) k) →
  currentHeight s' = currentHeight s + interval + 1
  ∧ count (blockIndex s') k = count (blockIndex s) k.
Proof.
  intros HW Hcur Hnew Hrun Hk. split.
  { apply Advance_Running_history in Hrun as (-> & _); [done..|int_range]. }
  rewrite (Advance_Running_count _ _ _ _ _ _ k HW Hcur Hnew) by (done || int_range).
  unfold added_heights, removed_heights. rewrite countdown_reverse.
  replace (currentHeight s + interval + 1 - currentHeight s) with (interval + 1) by lia.
  rewrite Z2Nat.id by int_range.
  replace (currentHeight s + interval + 1 - (interval + 1) + 1)
    with (currentHeight s + interval + 1 - interval) by lia.
  rewrite occurrences_reverse.
  apply wrap_value; [lia|done].
Qed.

Lemma Advance_window_plus_one_changes_nothing_witness :
  currentHeight (memory (Advance 10 4 chain_s state_s (currentHeight state_s + 4 + 1)))
  = currentHeight state_s + 4 + 1
  ∧ count (blockIndex (memory (Advance 10 4 chain_s state_s
                                 (currentHeight state_s + 4 + 1)))) 2
    = count (blockIndex state_s) 2.
Proof.
  apply (Advance_window_plus_one_changes_nothing 10 4 chain_s state_s).
  - unfold interval_ok. lia.
  - vm_compute. split; [discriminate|reflexivity].
  - vm_compute. split; [discriminate|reflexivity].
  - vm_compute. reflexivity.
  - vm_compute. split; discriminate.
Defined.

Lemma run_fetch_cases upd tag chain l :
  ∀ s, ∃ s', run_list (fetch_body upd tag chain) l s = Running s'
             ∨ run_list (fetch_body upd tag chain) l s = Fatal s'.
Proof.
  induction l as [|h l IH]; intros s; cbn [run_list]; [by eexists; left|].
  unfold fetch_body at 1 3, GetBlockCollated.
  destruct (chain h); [apply IH|by eexists; right].
Qed.

(** X9. A turn that jumps more than the window size plus one asks, in its
    removing loop, for a block above the height the node has just
    reported: when the node has no block above that height, the turn ends
    the process and the stored height stays the old one. *)
Theorem Advance_beyond_window_is_fatal fuel interval chain s newHeight :
  interval_ok interval → height_ok (currentHeight s) → height_ok newHeight →
  interval + 2 ≤ newHeight - currentHeight s →
  (∀ h, newHeight < h → chain h = None) →
  (Z.to_nat (newHeight - currentHeight s) < fuel)%nat →
  ∃ s', Advance fuel interval chain s newHeight = Fatal s'
        ∧ currentHeight s' = currentHeight s.
Proof.
  intros HW Hcur Hnew Hjump Htip Hfuel.
  enough (∃ s', Advance fuel interval chain s newHeight = Fatal s') as [s' Hs'].
  { exists s'. split; [done|]. by eapply Advance_Fatal_height. }
  rewrite Advance_forward, add_body_fetch, remove_body_fetch by (done || int_range).
  destruct (run_fetch_cases incr LogAdding chain
              (added_heights (currentHeight s) newHeight)
              (log s [LogNewHeight newHeight (currentHeight s)
                        (newHeight - currentHeight s)])) as [s2 [-> | ->]];
    [|by eexists].
  destruct (run_fetch_cases decr LogRemoving chain
              (removed_heights interval (currentHeight s) newHeight) s2)
    as [s3 [Hrem | ->]]; [|by eexists].
  apply run_fetch_Running in Hrem.
  assert (newHeight + 1 ∈ removed_heights interval (currentHeight s) newHeight) as Hin
    by (apply elem_of_removed_heights; int_range).
  rewrite Forall_forall in Hrem. apply Hrem in Hin as [v Hv].
  rewrite Htip in Hv by lia. done.
Qed.

Lemma Advance_beyond_window_is_fatal_witness :
  ∃ s', Advance 10 4 chain_v state_s 19 = Fatal s'
        ∧ currentHeight s' = currentHeight state_s.
Proof.
  apply (Advance_beyond_window_is_fatal 10 4 chain_v state_s 19).
  - unfold interval_ok. lia.
  - vm_compute. split; [discriminate|reflexivity].
  - unfold height_ok. lia.
  - vm_compute. discriminate.
  - intros h Hh. unfold chain_v.
    by replace (19 <? h) with true by (symmetry; apply Z.ltb_lt; lia).
  - vm_compute. lia.
Defined.

(** ** A node that grows block by block *)

Lemma Initialize_agrees fuel interval chain h s :
  interval_ok interval → height_ok h →
  Initialize fuel interval chain h = Running s →
  currentHeight s = h ∧ agrees interval chain s.
Proof.
  intros HW Hh Hrun. apply Initialize_Running in Hrun as ->; done.
Qed.

(** One turn that finds the same height or the next one keeps the
    histogram in agreement with the window. *)
Lemma Advance_single_step_agrees fuel interval chain s newHeight s' :
  interval_ok interval → height_ok (currentHeight s) → height_ok newHeight →
  newHeight = currentHeight s ∨ newHeight = currentHeight s + 1 →
  agrees interval chain s →
  Advance fuel interval chain s newHeight = Running s' →
  currentHeight s' = newHeight ∧ agrees interval chain s'.
Proof.
  intros HW Hcur Hnew [->| ->] Hagree Hrun.
  - rewrite Advance_still in Hrun. by injection Hrun as <-.
  - assert (currentHeight s' = currentHeight s + 1) as Hh.
    { apply Advance_Running_history in Hrun as (-> & _); [done..|lia]. }
    split; [done|]. unfold agrees. rewrite Hh.
    by eapply Advance_one_block_matches_rescan.
Qed.

Lemma poll_single_steps fuel interval chain heights :
  ∀ s s',
    interval_ok interval → height_ok (currentHeight s) →
    Forall height_ok heights → single_steps (currentHeight s) heights →
    agrees interval chain s →
    poll fuel interval chain s heights = Running s' →
    currentHeight s' = final_height (currentHeight s) heights
    ∧ agrees interval chain s'.
Proof.
  induction heights as [|newHeight heights IH];
    intros s s' HW Hcur Hok Hsteps Hagree Hpoll; cbn [poll final_height] in *.
  - by injection Hpoll as <-.
  - destruct Hsteps as [Hstep Hsteps]. apply Forall_cons in Hok as [Hnew Hok].
    destruct (Advance fuel interval chain s newHeight) as [s1| |] eqn:Hadv; try done.
    apply Advance_single_step_agrees in Hadv as [Hh1 Hagree1]; [|done..].
    rewrite <- Hh1 in Hnew, Hsteps |- *. by apply IH.
Qed.

(** X10. While the polls find the same height or the next one, the
    histogram stays the one a fresh scan of the current window would
    give, count by count, and every count lies between 0 and the window
    size. *)
Theorem poll_single_steps_matches_rescan fuel interval chain h0 heights s0 s :
  interval_ok interval → height_ok h0 → Forall height_ok heights →
  single_steps h0 heights →
  Initialize fuel interval chain h0 = Running s0 →
  poll fuel interval chain s0 heights = Running s →
  currentHeight s = final_height h0 heights
  ∧ ∀ k, count (blockIndex s) k = count (rescan interval chain (currentHeight s)) k
         ∧ 0 ≤ count (blockIndex s) k ≤ interval.
Proof.
  intros HW Hh0 Hok Hsteps Hinit Hpoll.
  apply Initialize_agrees in Hinit as [Hcur Hagree]; [|done..].
  rewrite <- Hcur in Hh0, Hsteps |- *.
  destruct (poll_single_steps _ _ _ _ _ _ HW Hh0 Hok Hsteps Hagree Hpoll)
    as [Hfinal Hagree'].
  split; [done|]. intros k. split; [apply Hagree'|].
  rewrite Hagree', count_rescan by done.
  pose proof (length_filter (λ v, v = k)
                (booked chain <$> window interval (currentHeight s))) as Hlen.
  unfold window in Hlen. rewrite length_fmap, length_seqZ in Hlen.
  unfold window. int_range.
Qed.

Lemma poll_single_steps_matches_rescan_witness :
  currentHeight (memory (poll 10 4 chain_s state_s [14; 14; 15]))
  = final_height 13 [14; 14; 15]
  ∧ ∀ k, count (blockIndex (memory (poll 10 4 chain_s state_s [14; 14; 15]))) k
         = count (rescan 4 chain_s
                    (currentHeight (memory (poll 10 4 chain_s state_s [14; 14; 15])))) k
         ∧ 0 ≤ count (blockIndex (memory (poll 10 4 chain_s state_s [14; 14; 15]))) k ≤ 4.
Proof.
  apply (poll_single_steps_matches_rescan 10 4 chain_s 13 [14; 14; 15] state_s).
  - unfold interval_ok. lia.
  - unfold height_ok. lia.
  - repeat constructor; unfold height_ok; lia.
  - cbn [single_steps]. lia.
  - vm_compute. reflexivity.
  - vm_compute. reflexivity.
Defined.

(** ** The whole program on a steady node *)

Lemma GetNextBlockRetarget_value (h : Z) (fuel : nat) :
  0 ≤ h → (h `div` 2016 + 1) * 2016 ≤ int_max →
  (Z.to_nat (h `div` 2016) + 1 < fuel)%nat →
  GetNextBlockRetarget fuel h = Some ((h `div` 2016 + 1) * 2016).
Proof.
  intros Hh Hmax Hfuel. unfold GetNextBlockRetarget.
  rewrite retarget_loop;
    [| done | unfold int_max in *; Z.div_mod_to_equations; lia
     | apply Nat.le_lt_trans with (Z.to_nat (h `div` 2016) + 1)%nat; [|done];
       Z.div_mod_to_equations; lia].
  unfold BLOCK_RETARGET_INTERVAL, int_mul, int_add.
  set (n := (h + 2015) `div` 2016).
  assert (0 ≤ n ∧ n * 2016 ≤ int_max ∧ h ≤ n * 2016 < h + 2016) as (Hn & Hnmax & Hnh).
  { subst n. unfold int_max in *. Z.div_mod_to_equations. lia. }
  assert (n * 2016 = h → n = h `div` 2016) as Hmul.
  { unfold n. intros ?. Z.div_mod_to_equations. lia. }
  assert (n * 2016 ≠ h → n = h `div` 2016 + 1) as Hnot.
  { unfold n. intros ?. Z.div_mod_to_equations. lia. }
  clearbody n.
  rewrite (wrap_small (n * 2016)) by (unfold in_int, int_min; lia).
  destruct (Z.eqb_spec (n * 2016) h) as [Heq|Hne].
  - rewrite (wrap_small (n + 1)) by (unfold in_int, int_min, int_max in *; lia).
    rewrite wrap_small by (unfold in_int, int_min, int_max in *; lia).
    f_equal. lia.
  - rewrite wrap_small by (unfold in_int, int_min; lia).
    f_equal. lia.
Qed.

(** On a node that answers every fetch above the low end of the first
    window, the polling loop follows single steps for ever. *)
Lemma poll_answers_steady fuel interval chain h0 heights :
  ∀ s,
    interval_ok interval → height_ok (currentHeight s) →
    Forall height_ok heights → single_steps (currentHeight s) heights →
    h0 ≤ currentHeight s →
    (∀ h, h0 - interval < h → is_Some (chain h)) →
    (1 < fuel)%nat →
    agrees interval chain s →
    ∃ s', poll_answers fuel interval chain s (Some <$> heights) = Polling s'
          ∧ currentHeight s' = final_height (currentHeight s) heights
          ∧ agrees interval chain s'.
Proof.
  induction heights as [|newHeight heights IH];
    intros s HW Hcur Hok Hsteps Hlow Hchain Hfuel Hagree;
    cbn [poll_answers fmap list_fmap final_height GetBlockHeight] in *.
  - by exists s.
  - destruct Hsteps as [Hstep Hsteps]. apply Forall_cons in Hok as [Hnew Hok].
    assert (∃ s1, Advance fuel interval chain s newHeight = Running s1) as [s1 Hadv].
    { destruct Hstep as [->| ->]; [rewrite Advance_still; by eexists|].
      apply Advance_finishes; [done|done|done|lia| | |lia].
      - apply Forall_forall. intros h Hh. apply Hchain.
        apply elem_of_added_heights in Hh; int_range.
      - apply Forall_forall. intros h Hh. apply Hchain.
        apply elem_of_removed_heights in Hh. int_range. }
    rewrite Hadv.
    apply Advance_single_step_agrees in Hadv as [Hh1 Hagree1]; [|done..].
    rewrite <- Hh1 in Hnew, Hsteps |- *.
    apply IH; try done. destruct Hstep; lia.
Qed.

(** X11. On a node whose height grows by at most one between polls and
    that answers every fetch, [main] neither dies nor hangs: it prints the
    next retarget boundary above the first height, and after any number
    of polls it holds the last height found and the histogram of the
    window ending there. *)
Theorem main_on_steady_node fuel chain h0 heights :
  height_ok h0 → Forall height_ok heights → single_steps h0 heights →
  (∀ h, h0 - BLOCK_BIP9_INTERVAL < h → is_Some (chain h)) →
  (Z.to_nat BLOCK_BIP9_INTERVAL < fuel)%nat →
  (Z.to_nat (h0 `div` BLOCK_RETARGET_INTERVAL) + 1 < fuel)%nat →
  ∃ s, main fuel chain (Some h0) (Some <$> heights)
       = (Some ((h0 `div` BLOCK_RETARGET_INTERVAL + 1) * BLOCK_RETARGET_INTERVAL),
          Polling s)
       ∧ currentHeight s = final_height h0 heights
       ∧ ∀ k, count (blockIndex s) k
              = count (rescan BLOCK_BIP9_INTERVAL chain (currentHeight s)) k.
Proof.
  intros Hh0 Hok Hsteps Hchain Hfuel Hfuel'.
  assert (interval_ok BLOCK_BIP9_INTERVAL) as HW
    by (unfold interval_ok, BLOCK_BIP9_INTERVAL; lia).
  unfold main. cbn [GetBlockHeight].
  rewrite GetNextBlockRetarget_value;
    [|unfold height_ok in Hh0; lia
     |unfold height_ok, int_max in *; Z.div_mod_to_equations; lia|done].
  rewrite Initialize_run by done.
  set (s0 := log _ _).
  destruct (poll_answers_steady fuel BLOCK_BIP9_INTERVAL chain h0 heights s0)
    as (s & Hpoll & Hfinal & Hagree); try done.
  { unfold BLOCK_BIP9_INTERVAL in Hfuel. lia. }
  exists s. by rewrite Hpoll.
Qed.

Lemma main_on_steady_node_witness :
  ∃ s, main fuel_a chain_a (Some 20000) (Some <$> [20001; 20001; 20002])
       = (Some ((20000 `div` BLOCK_RETARGET_INTERVAL + 1) * BLOCK_RETARGET_INTERVAL),
          Polling s)
       ∧ currentHeight s = final_height 20000 [20001; 20001; 20002]
       ∧ ∀ k, count (blockIndex s) k
              = count (rescan BLOCK_BIP9_INTERVAL chain_a (currentHeight s)) k.
Proof.
  apply (main_on_steady_node fuel_a chain_a 20000 [20001; 20001; 20002]).
  - unfold height_ok. lia.
  - repeat constructor; unfold height_ok; lia.
  - cbn [single_steps]. lia.
  - intros h _. unfold chain_a. by eexists.
  - unfold fuel_a, BLOCK_BIP9_INTERVAL. lia.
  - unfold fuel_a, BLOCK_RETARGET_INTERVAL.
    replace (20000 `div` 2016) with 9 by reflexivity. lia.
Defined.

(** ** The polling loop when the height query fails *)

(** X12. Whenever the polling loop is between two turns, or ends the
    process because [GetBlockHeight] failed, the histogram it holds adds
    up to the window size, and so did every summary it printed. *)
Theorem poll_answers_total fuel interval chain h0 answers s0 s :
  interval_ok interval → height_ok h0 → Forall height_ok (omap id answers) →
  Initialize fuel interval chain h0 = Running s0 →
  poll_answers fuel interval chain s0 answers = Polling s
  ∨ poll_answers fuel interval chain s0 answers = HeightFatal (Some s) →
  total (blockIndex s) = interval ∧ summaries_show interval (trace s).
Proof.
  intros HW Hh0 Hok Hinit Hpoll.
  apply Initialize_total in Hinit as (Hcur & Htot & Hshow); [|done..].
  rewrite <- Hcur in Hh0. clear Hcur h0.
  revert s0 Hh0 Htot Hshow Hok Hpoll.
  induction answers as [|[newHeight|] answers IH];
    intros s0 Hcur Htot Hshow Hok Hpoll; cbn [poll_answers GetBlockHeight] in Hpoll.
  - by destruct Hpoll as [[= <-]|[=]].
  - cbn [omap list_omap id] in Hok. apply Forall_cons in Hok as [Hnew Hok].
    destruct (Advance fuel interval chain s0 newHeight) as [s1| |] eqn:Hadv;
      [|by destruct Hpoll..].
    apply Advance_total in Hadv as (Hcur1 & Htot1 & Hshow1); [|done..].
    apply (IH s1); [by rewrite Hcur1|by rewrite Htot1| |done|done].
    rewrite <- Htot. apply Hshow1. by rewrite Htot.
  - by destruct Hpoll as [[=]|[= <-]].
Qed.

Lemma poll_answers_total_witness :
  total (blockIndex (memory (Advance 10 4 chain_s state_s 14))) = 4
  ∧ summaries_show 4 (trace (memory (Advance 10 4 chain_s state_s 14))).
Proof.
  apply (poll_answers_total 10 4 chain_s 13 [Some 14; None; Some 15] state_s).
  - unfold interval_ok. lia.
  - unfold height_ok. lia.
  - repeat constructor; unfold height_ok; lia.
  - vm_compute. reflexivity.
  - right. vm_compute. reflexivity.
Defined.
